(** * Rhythm Flow: chart generation and the judgment engine

    A shallow embedding of [src/services/audioAnalyzer.ts] (the onset
    detector that turns PCM samples into a note chart), of the game
    logic of [src/components/GameCanvas.tsx] (transport clock, input
    judgment, miss sweep, scoring, result screen, keyboard handler) and
    of what it draws (visualizer smoothing, lane layout, note bodies),
    and of the file name shown by [src/App.tsx].

    Modelling conventions.
    - A JavaScript [number] that carries a time, a sample or an energy is
      an exact rational ([Q]); IEEE rounding is not modelled.  Counters
      (score, combo, ...) only ever hold integers and are [Z].  Array
      indices are [nat].
    - [Math.sqrt] has no rational counterpart: the analyzer takes it as a
      section variable, and every theorem holds for whatever function is
      supplied (with its assumptions, if any, stated as hypotheses).
    - The accuracy of the result screen, where the source divides by zero
      for an empty chart, is modelled with an explicit [Number] type that
      has [NaN] and the infinities.
    - React state setters are modelled as immediate updates of an engine
      record; refs are fields of the same record.  [ctx.currentTime], the
      audio clock, is an input of every event. *)

From Stdlib Require Import Ascii String DecimalString.
From Stdlib Require DecimalNat.
From stdpp Require Import base list.
From Stdlib Require Import ZArith QArith Qround Qabs Qminmax Qpower Lia Lqa Bool Morphisms.
Open Scope Q_scope.

(** ** Comparison operators of the source on numbers *)

(** [a > b] *)
Definition Qgtb (a b : Q) : bool := negb (Qle_bool a b).

(** [a <= b] *)
Definition Qleb (a b : Q) : bool := Qle_bool a b.

(** [a >= b] *)
Definition Qgeb (a b : Q) : bool := Qle_bool b a.

(** ** [src/types.ts] *)

Definition LaneIndex := Z.
Bind Scope Z_scope with LaneIndex.

Record Note := mkNote {
  id : string;
  time : Q;
  lane : LaneIndex;
  hit : bool;
  missed : bool;
  visible : bool
}.

Inductive Judgment := PERFECT | GOOD | MISS | NONE.

Record GameStats := mkStats {
  score : Z;
  combo : Z;
  maxCombo : Z;
  perfect : Z;
  good : Z;
  miss : Z
}.

(** [AnalyzedTrack]: the decoded buffer and the file name play no role in
    the logic; the buffer's duration is kept. *)
Record AnalyzedTrack := mkTrack {
  notes : list Note;
  duration : Q
}.

(** ** [src/constants.ts] *)

(** [JUDGMENT_WINDOWS] has no entry for [NONE]; the source never looks it
    up. *)
Definition JUDGMENT_WINDOWS (j : Judgment) : Q :=
  match j with
  | PERFECT => 8 # 100
  | GOOD => 15 # 100
  | MISS => 25 # 100
  | NONE => 0
  end.

Definition SCORES (j : Judgment) : Z :=
  match j with
  | PERFECT => 300
  | GOOD => 100
  | MISS => 0
  | NONE => 0
  end.

(** ** [src/services/audioAnalyzer.ts] *)

Definition SIZE : nat := 2048.
Definition HISTORY_SIZE : nat := 43.
Definition MULTIPLIER : Q := 14 # 10.
Definition MIN_THRESHOLD : Q := 5 # 100.
Definition MIN_NOTE_GAP : Q := 15 # 100.

(** The mutable locals of [analyzeAudio] that survive a loop iteration. *)
Record Analysis := mkAnalysis {
  a_notes : list Note;
  energyHistory : list Q;
  lastNoteTime : Q
}.

Definition analysis0 : Analysis :=
  {| a_notes := []; energyHistory := []; lastNoteTime := 0 |}.

(** [`note-${beatIndex}`] *)
Definition noteId (beatIndex : nat) : string :=
  ("note-" ++ NilEmpty.string_of_uint (Nat.to_uint beatIndex))%string.

(** Step 2: the mean of the history, 0 when the history is empty. *)
Definition localAverage (history : list Q) : Q :=
  if (0 <? length history)%nat
  then fold_left Qplus history 0 / inject_Z (Z.of_nat (length history))
  else 0.

(** Step 3: [push] then [shift] once the history is longer than
    [HISTORY_SIZE]. *)
Definition pushHistory (history : list Q) (rms : Q) : list Q :=
  let h := history ++ [rms] in
  if (HISTORY_SIZE <? length h)%nat then drop 1 h else h.

(** Step 5: the lane pattern, from the beat count and the onset time. *)
Definition laneOf (beatIndex : nat) (t : Q) : LaneIndex :=
  let patternType := ((beatIndex / 8) mod 4)%nat in
  let subIndex := (beatIndex mod 8)%nat in
  if (patternType =? 0)%nat then Z.of_nat (subIndex mod 4)
  else if (patternType =? 1)%nat then
    let base := if (beatIndex mod 16 <? 8)%nat then 0%Z else 2%Z in
    (base + Z.of_nat (subIndex mod 2))%Z
  else if (patternType =? 2)%nat then (3 - Z.of_nat (subIndex mod 4))%Z
  else Z.rem (Qfloor (t * 100)) 4.

Section Analyzer.

(** [Math.sqrt] *)
Variable sqrt : Q -> Q.

(** Step 1: RMS energy of the chunk [data[i .. i+SIZE)]. *)
Definition chunkRms (data : list Q) (i : nat) : Q :=
  let sum := fold_left (fun sum val => sum + val * val) (take SIZE (drop i data)) 0 in
  sqrt (sum / inject_Z (Z.of_nat SIZE)).

(** One iteration of the [for] loop, at chunk offset [i].  The sample rate
    of a decoded buffer is positive, so the division by zero of [Q] (which
    yields 0, where the source yields an infinity or NaN) is not
    exercised; no theorem below depends on that. *)
Definition loopBody (sampleRate : Q) (data : list Q) (i : nat) (st : Analysis) : Analysis :=
  let rms := chunkRms data i in
  let avg := localAverage (energyHistory st) in
  let history := pushHistory (energyHistory st) rms in
  if Qgtb rms (avg * MULTIPLIER) && Qgtb rms MIN_THRESHOLD then
    let t := inject_Z (Z.of_nat i) / sampleRate in
    if Qgtb (t - lastNoteTime st) MIN_NOTE_GAP then
      let beatIndex := length (a_notes st) in
      {| a_notes := a_notes st ++
           [ {| id := noteId beatIndex; time := t; lane := laneOf beatIndex t;
                hit := false; missed := false; visible := true |} ];
         energyHistory := history;
         lastNoteTime := t |}
    else
      {| a_notes := a_notes st; energyHistory := history; lastNoteTime := lastNoteTime st |}
  else
    {| a_notes := a_notes st; energyHistory := history; lastNoteTime := lastNoteTime st |}.

(** [for (let i = 0; i < data.length - SIZE; i += SIZE)]; the fuel bounds
    the number of iterations. *)
Fixpoint loop (fuel : nat) (sampleRate : Q) (data : list Q) (i : nat) (st : Analysis) : Analysis :=
  match fuel with
  | O => st
  | S fuel' =>
      if (Z.of_nat i <? Z.of_nat (length data) - Z.of_nat SIZE)%Z
      then loop fuel' sampleRate data (i + SIZE) (loopBody sampleRate data i st)
      else st
  end.

(** The chart of [analyzeAudio], from the left channel and the sample rate
    of the decoded buffer.  One unit of fuel per sample is more than the
    loop can use ([loop_fuel_enough] below). *)
Definition analyzeAudio (data : list Q) (sampleRate : Q) : list Note :=
  a_notes (loop (length data) sampleRate data 0 analysis0).

End Analyzer.

(** ** [src/components/GameCanvas.tsx]: engine state *)

(** The refs and the React state of the component that the game logic
    reads or writes.  [restartTimers] counts the [setTimeout] callbacks of
    [restartGame] that have not fired yet. *)
Record Engine := mkEngine {
  audioContext : bool;
  sourceNode : bool;
  startTime : Q;
  pauseTime : Q;
  notesRef : list Note;
  isPlaying : bool;
  isPaused : bool;
  isFinished : bool;
  stats : GameStats;
  lastJudgment : option Judgment;
  laneEffects : list Q;
  restartTimers : nat
}.

Definition zeroStats : GameStats :=
  {| score := 0; combo := 0; maxCombo := 0; perfect := 0; good := 0; miss := 0 |}.

(** ** Audio control *)

(** [playAudio(offset)] when the audio clock reads [now]. *)
Definition playAudio (offset now : Q) (g : Engine) : Engine :=
  {| audioContext := true;
     sourceNode := true;
     startTime := now - offset;
     pauseTime := pauseTime g;
     notesRef := notesRef g;
     isPlaying := true;
     isPaused := false;
     isFinished := isFinished g;
     stats := stats g;
     lastJudgment := lastJudgment g;
     laneEffects := laneEffects g;
     restartTimers := restartTimers g |}.

Definition pauseGame (now : Q) (g : Engine) : Engine :=
  if negb (audioContext g) || negb (isPlaying g) then g
  else
    {| audioContext := audioContext g;
       sourceNode := false;
       startTime := startTime g;
       pauseTime := now - startTime g;
       notesRef := notesRef g;
       isPlaying := false;
       isPaused := true;
       isFinished := isFinished g;
       stats := stats g;
       lastJudgment := lastJudgment g;
       laneEffects := laneEffects g;
       restartTimers := restartTimers g |}.

Definition resumeGame (now : Q) (g : Engine) : Engine :=
  playAudio (pauseTime g) now g.

(** The transport time as [render] computes it ("Time Calculation"). *)
Definition elapsed (now : Q) (g : Engine) : Q :=
  if audioContext g then
    if isPlaying g then now - startTime g else pauseTime g
  else 0.

(** ** Input handling *)

(** The predicate handed to [findIndex]. *)
Definition isTarget (l : LaneIndex) (currentTime : Q) (n : Note) : bool :=
  (lane n =? l)%Z && negb (hit n) && negb (missed n)
  && Qleb (Qabs (time n - currentTime)) (JUDGMENT_WINDOWS MISS).

(** The tier of a press [diff] seconds away from its note. *)
Definition judge (diff : Q) : Judgment :=
  if Qleb diff (JUDGMENT_WINDOWS PERFECT) then PERFECT
  else if Qleb diff (JUDGMENT_WINDOWS GOOD) then GOOD
  else MISS.

(** The updater passed to [setStats] by [handleInput]. *)
Definition judgeStats (judgment : Judgment) (prev : GameStats) : GameStats :=
  let newCombo := match judgment with MISS => 0%Z | _ => (combo prev + 1)%Z end in
  {| score := (score prev + SCORES judgment
               + (if (10 <? newCombo)%Z then (newCombo / 10) * 10 else 0))%Z;
     combo := newCombo;
     maxCombo := Z.max (maxCombo prev) newCombo;
     perfect := match judgment with PERFECT => (perfect prev + 1)%Z | _ => perfect prev end;
     good := match judgment with GOOD => (good prev + 1)%Z | _ => good prev end;
     miss := match judgment with MISS => (miss prev + 1)%Z | _ => miss prev end |}.

Definition setHit (n : Note) : Note :=
  {| id := id n; time := time n; lane := lane n;
     hit := true; missed := missed n; visible := visible n |}.

Definition setMissed (n : Note) : Note :=
  {| id := id n; time := time n; lane := lane n;
     hit := hit n; missed := true; visible := visible n |}.

(** [handleInput(lane)] when the audio clock reads [now].  [findIndex] is
    stdpp's [list_find], which returns the first match with its index
    ([None] for the source's -1).  [lane] is a [LaneIndex], one of the
    four slots of [laneEffects]. *)
Definition handleInput (l : LaneIndex) (now : Q) (g : Engine) : Engine :=
  if negb (isPlaying g) || isPaused g then g
  else if negb (audioContext g) then g
  else
    let currentTime := now - startTime g in
    let flash := <[Z.to_nat l := 1]> (laneEffects g) in
    match list_find (fun n => isTarget l currentTime n = true) (notesRef g) with
    | Some (targetNoteIndex, note) =>
        let diff := Qabs (time note - currentTime) in
        let judgment := judge diff in
        {| audioContext := audioContext g;
           sourceNode := sourceNode g;
           startTime := startTime g;
           pauseTime := pauseTime g;
           notesRef := alter setHit targetNoteIndex (notesRef g);
           isPlaying := isPlaying g;
           isPaused := isPaused g;
           isFinished := isFinished g;
           stats := judgeStats judgment (stats g);
           lastJudgment := Some judgment;
           laneEffects := flash;
           restartTimers := restartTimers g |}
    | None =>
        {| audioContext := audioContext g;
           sourceNode := sourceNode g;
           startTime := startTime g;
           pauseTime := pauseTime g;
           notesRef := notesRef g;
           isPlaying := isPlaying g;
           isPaused := isPaused g;
           isFinished := isFinished g;
           stats := stats g;
           lastJudgment := lastJudgment g;
           laneEffects := flash;
           restartTimers := restartTimers g |}
    end.

(** ** Game loop: the miss sweep of [render] *)

(** The guard of the sweep for a note that is not hit. *)
Definition overdue (currentTime : Q) (n : Note) : bool :=
  negb (missed n) && Qgtb currentTime (time n + JUDGMENT_WINDOWS MISS).

(** The updater passed to [setStats] by the sweep. *)
Definition missStats (prev : GameStats) : GameStats :=
  {| score := score prev; combo := 0; maxCombo := maxCombo prev;
     perfect := perfect prev; good := good prev; miss := (miss prev + 1)%Z |}.

(** [notes.forEach(...)], threading the stats and the last judgment. *)
Fixpoint sweep (currentTime : Q) (ns : list Note) (s : GameStats) (j : option Judgment)
  : list Note * GameStats * option Judgment :=
  match ns with
  | [] => ([], s, j)
  | note :: rest =>
      if hit note then
        let '(rest', s', j') := sweep currentTime rest s j in (note :: rest', s', j')
      else if overdue currentTime note then
        let '(rest', s', j') := sweep currentTime rest (missStats s) (Some MISS) in
        (setMissed note :: rest', s', j')
      else
        let '(rest', s', j') := sweep currentTime rest s j in (note :: rest', s', j')
  end.

(** The decay of one lane's hit effect. *)
Definition decay (opacity : Q) : Q :=
  if Qgtb opacity 0 then Qmax 0 (opacity - (8 # 100)) else opacity.

(** One frame of [render] with the canvas mounted (drawing left out). *)
Definition render (now : Q) (g : Engine) : Engine :=
  let currentTime := elapsed now g in
  let '(ns, s, j) := sweep currentTime (notesRef g) (stats g) (lastJudgment g) in
  {| audioContext := audioContext g;
     sourceNode := sourceNode g;
     startTime := startTime g;
     pauseTime := pauseTime g;
     notesRef := ns;
     isPlaying := isPlaying g;
     isPaused := isPaused g;
     isFinished := isFinished g;
     stats := s;
     lastJudgment := j;
     laneEffects := decay <$> laneEffects g;
     restartTimers := restartTimers g |}.

(** ** Result screen *)

(** A JavaScript number that may be non-finite. *)
Inductive Number := Finite (q : Q) | Infinity | NegInfinity | NaN.

(** [a / b] for integers [a] and [b >= 0]. *)
Definition jsDiv (a b : Z) : Number :=
  if (b =? 0)%Z then
    if (a =? 0)%Z then NaN else if (0 <? a)%Z then Infinity else NegInfinity
  else Finite (inject_Z a / inject_Z b).

(** [x * 100] *)
Definition jsTimes100 (x : Number) : Number :=
  match x with Finite q => Finite (q * 100) | other => other end.

(** [Math.round(x)]: the nearest integer, halves rounded up. *)
Definition jsRound (x : Number) : Number :=
  match x with Finite q => Finite (inject_Z (Qfloor (q + (1 # 2)))) | other => other end.

(** [x || 0]: 0 and NaN are falsy. *)
Definition jsOrZero (x : Number) : Number :=
  match x with
  | Finite q => if Qeq_bool q 0 then Finite 0 else Finite q
  | NaN => Finite 0
  | other => other
  end.

(** [x >= k] for a finite [k]. *)
Definition jsGeb (x : Number) (k : Q) : bool :=
  match x with
  | Finite q => Qgeb q k
  | Infinity => true
  | NegInfinity => false
  | NaN => false
  end.

Definition accuracy (totalNotes : nat) (s : GameStats) : Number :=
  jsOrZero (jsRound (jsTimes100 (jsDiv (score s) (Z.of_nat totalNotes * 300)))).

Definition gradeOf (acc : Number) : string :=
  if jsGeb acc 95 then "S"%string
  else if jsGeb acc 90 then "A"%string
  else if jsGeb acc 80 then "B"%string
  else if jsGeb acc 70 then "C"%string
  else if jsGeb acc 60 then "D"%string
  else "F"%string.

(** ** The component as a transition system *)

Inductive Event :=
| ClickStart (now : Q)
| KeyLane (l : LaneIndex) (now : Q)
| KeySpace (now : Q)
| ClickPause (now : Q)
| ClickResume (now : Q)
| ClickRestart
| TimerFires (now : Q)
| Frame (now : Q)
| SourceEnded (now : Q).

Section Component.

Variable track : AnalyzedTrack.

(** The state of a freshly mounted component. *)
Definition mount : Engine :=
  {| audioContext := false;
     sourceNode := false;
     startTime := 0;
     pauseTime := 0;
     notesRef := notes track;
     isPlaying := false;
     isPaused := false;
     isFinished := false;
     stats := zeroStats;
     lastJudgment := None;
     laneEffects := [0; 0; 0; 0];
     restartTimers := 0 |}.

(** [restartGame]; the delayed [playAudio(0)] is left to [TimerFires]. *)
Definition restartGame (g : Engine) : Engine :=
  {| audioContext := audioContext g;
     sourceNode := sourceNode g;
     startTime := startTime g;
     pauseTime := 0;
     notesRef := notes track;
     isPlaying := isPlaying g;
     isPaused := isPaused g;
     isFinished := false;
     stats := zeroStats;
     lastJudgment := None;
     laneEffects := laneEffects g;
     restartTimers := S (restartTimers g) |}.

(** The [onended] handler installed by [playAudio]. *)
Definition onended (now : Q) (g : Engine) : Engine :=
  if Qgeb (now - startTime g) (duration track - (5 # 10)) then
    {| audioContext := audioContext g;
       sourceNode := sourceNode g;
       startTime := startTime g;
       pauseTime := pauseTime g;
       notesRef := notesRef g;
       isPlaying := false;
       isPaused := isPaused g;
       isFinished := true;
       stats := stats g;
       lastJudgment := lastJudgment g;
       laneEffects := laneEffects g;
       restartTimers := restartTimers g |}
  else g.

(** The callback scheduled by [restartGame]. *)
Definition timerFires (now : Q) (g : Engine) : Engine :=
  match restartTimers g with
  | O => g
  | S k =>
      playAudio 0 now
        {| audioContext := audioContext g;
           sourceNode := sourceNode g;
           startTime := startTime g;
           pauseTime := pauseTime g;
           notesRef := notesRef g;
           isPlaying := isPlaying g;
           isPaused := isPaused g;
           isFinished := isFinished g;
           stats := stats g;
           lastJudgment := lastJudgment g;
           laneEffects := laneEffects g;
           restartTimers := k |}
  end.

(** What each event does, with the conditions under which the source
    wires it: a button acts only while the JSX renders it, the canvas is
    mounted only while the result screen is not shown. *)
Definition step (ev : Event) (g : Engine) : Engine :=
  match ev with
  | ClickStart now =>
      if negb (isPlaying g) && negb (isPaused g) && negb (isFinished g)
      then playAudio 0 now g else g
  | KeyLane l now => handleInput l now g
  | KeySpace now =>
      if isPlaying g then pauseGame now g
      else if isPaused g then resumeGame now g
      else g
  | ClickPause now =>
      if negb (isFinished g) && isPlaying g then pauseGame now g else g
  | ClickResume now =>
      if isPaused g && negb (isFinished g) then resumeGame now g else g
  | ClickRestart =>
      if isFinished g || isPaused g then restartGame g else g
  | TimerFires now => timerFires now g
  | Frame now => if isFinished g then g else render now g
  | SourceEnded now => onended now g
  end.

Definition run (evs : list Event) (g : Engine) : Engine :=
  fold_left (fun g ev => step ev g) evs g.

Inductive reachable : Engine -> Prop :=
| reachable_mount : reachable mount
| reachable_step ev g : reachable g -> reachable (step ev g).

End Component.

(** ** Keyboard *)



(** ** Drawing: visualizer, layout, notes *)

(** [lerp] *)
Definition lerp (start stop factor : Q) : Q := start + (stop - start) * factor.

Definition SMOOTH_FACTOR : Q := 2 # 10.

(** The smoothing pass of the visualizer over all bins: [dataArray] is the
    byte spectrum just read from the analyser node, [smoothData] the
    values kept from the frame before; both have [bufferLength] entries
    in the source. *)
Definition smoothBins (dataArray : list Z) (smoothData : list Q) : list Q :=
  zip_with (fun targetValue currentValue =>
              lerp currentValue (inject_Z targetValue) SMOOTH_FACTOR)
           dataArray smoothData.

(** The height of the bar drawn for a smoothed value. *)
Definition barHeight (MAX_HEIGHT newValue : Q) : Q :=
  Qmax (newValue / 255 * MAX_HEIGHT) 2.

Definition LOOK_AHEAD_TIME : Q := 2.
Definition NOTE_SPEED : Q := 600.
Definition HIT_LINE_Y_OFFSET : Q := 100.

(** The layout that [render] derives from the canvas size. *)
Definition LANE_WIDTH (WIDTH : Q) : Q := Qmin (WIDTH / 4) 100.
Definition START_X (WIDTH : Q) : Q := (WIDTH - LANE_WIDTH WIDTH * 4) / 2.
Definition JUDGMENT_Y (HEIGHT : Q) : Q := HEIGHT - HIT_LINE_Y_OFFSET.

(** The arguments of a [fillRect]. *)
Record Rect := mkRect { rect_x : Q; rect_y : Q; rect_w : Q; rect_h : Q }.

(** The body rectangle that the [forEach] of [render] draws for one note
    at transport time [currentTime], [None] where the callback returns
    before drawing. *)
Definition noteBody (WIDTH HEIGHT currentTime : Q) (note : Note) : option Rect :=
  if hit note then None
  else if missed note || overdue currentTime note then None
  else
    let timeDiff := time note - currentTime in
    if Qgtb timeDiff LOOK_AHEAD_TIME || Qgtb (- (2 # 10)) timeDiff then None
    else
      let y := JUDGMENT_Y HEIGHT - timeDiff * NOTE_SPEED in
      let x := START_X WIDTH + inject_Z (lane note) * LANE_WIDTH WIDTH in
      Some {| rect_x := x + 4; rect_y := y - 8;
              rect_w := LANE_WIDTH WIDTH - 8; rect_h := 16 |}.

(** ** [src/App.tsx]: the displayed file name *)

(** [file.name.replace(/\.[^/.]+$/, ...)] with the empty string as the
    replacement.  A character of the class [[^/.]]: *)
Definition isExtChar (c : Ascii.ascii) : bool :=
  negb (Ascii.eqb c "/"%char) && negb (Ascii.eqb c "."%char).

Fixpoint allExtChars (s : string) : bool :=
  match s with
  | EmptyString => true
  | String c s' => isExtChar c && allExtChars s'
  end.

(** The leftmost position where the pattern matches up to the end of the
    string is cut off, with everything after it. *)
Fixpoint stripExtension (s : string) : string :=
  match s with
  | EmptyString => EmptyString
  | String c rest =>
      if Ascii.eqb c "."%char && negb (String.eqb rest EmptyString) && allExtChars rest
      then EmptyString
      else String c (stripExtension rest)
  end.

(** * Specification vocabulary *)

(** ** Charts *)

(** Time of the last accepted note, 0 when there is none. *)
Definition lastTime (ns : list Note) : Q := from_option time 0 (last ns).

(** The loop invariant of [analyzeAudio]: [lastNoteTime] mirrors the last
    note, every note lies after the first gap, and neighbours are more
    than a gap apart. *)
Record chart_inv (st : Analysis) : Prop := {
  inv_last : lastNoteTime st = lastTime (a_notes st);
  inv_late : forall n, n ∈ a_notes st -> MIN_NOTE_GAP < time n;
  inv_gap : forall i n1 n2, a_notes st !! i = Some n1 -> a_notes st !! S i = Some n2 ->
            MIN_NOTE_GAP < time n2 - time n1
}.

(** Two notes that agree as data: rational times are compared as numbers
    ([==]), everything else is equal. *)
Definition note_equiv (n1 n2 : Note) : Prop :=
  id n1 = id n2 /\ time n1 == time n2 /\ lane n1 = lane n2 /\
  hit n1 = hit n2 /\ missed n1 = missed n2 /\ visible n1 = visible n2.

Record analysis_equiv (s1 s2 : Analysis) : Prop := {
  eqv_notes : Forall2 note_equiv (a_notes s1) (a_notes s2);
  eqv_history : Forall2 Qeq (energyHistory s1) (energyHistory s2);
  eqv_last : lastNoteTime s1 == lastNoteTime s2
}.

(** ** Engine states *)

(** The states in which [handleInput] gets past its guards. *)
Definition Playing (g : Engine) : Prop :=
  isPlaying g = true /\ isPaused g = false /\ audioContext g = true.

(** An unresolved note of lane [l] within the miss window of time [t]. *)
Definition candidate (l : LaneIndex) (t : Q) (n : Note) : Prop :=
  lane n = l /\ hit n = false /\ missed n = false /\ Qabs (time n - t) <= 25 # 100.

(** The sweep reaches its mutation for this note. *)
Definition resolves (currentTime : Q) (n : Note) : bool :=
  negb (hit n) && overdue currentTime n.

(** What the sweep does to one note. *)
Definition sweepNote (currentTime : Q) (n : Note) : Note :=
  if resolves currentTime n then setMissed n else n.

Definition countResolved (currentTime : Q) (ns : list Note) : nat :=
  length (filter (fun n => resolves currentTime n = true) ns).

(** A sequence of frames, given by the clock reading of each. *)
Definition frames (nows : list Q) (g : Engine) : Engine :=
  fold_left (fun g now => render now g) nows g.


(** The same engine with other stats. *)
Definition withStats (s : GameStats) (g : Engine) : Engine :=
  {| audioContext := audioContext g;
     sourceNode := sourceNode g;
     startTime := startTime g;
     pauseTime := pauseTime g;
     notesRef := notesRef g;
     isPlaying := isPlaying g;
     isPaused := isPaused g;
     isFinished := isFinished g;
     stats := s;
     lastJudgment := lastJudgment g;
     laneEffects := laneEffects g;
     restartTimers := restartTimers g |}.

(** ** Note flags *)

Definition pristine (ns : list Note) : Prop :=
  Forall (fun n => hit n = false /\ missed n = false) ns.

Definition exclusive (n : Note) : Prop := ~ (hit n = true /\ missed n = true).

Definition isPress (ev : Event) : bool :=
  match ev with KeyLane _ _ => true | _ => false end.

Definition isFrame (ev : Event) : bool :=
  match ev with Frame _ => true | _ => false end.

(** How a note may change in one step: its chart data stays, a flag that
    is set stays set, [hit] changes only on a press and [missed] only on
    a frame. *)
Definition advances (ev : Event) (n n' : Note) : Prop :=
  id n' = id n /\ time n' = time n /\ lane n' = lane n /\ visible n' = visible n /\
  (hit n = true -> hit n' = true) /\
  (missed n = true -> missed n' = true) /\
  (hit n' <> hit n -> isPress ev = true) /\
  (missed n' <> missed n -> isFrame ev = true).

Definition keepsFlags (n n' : Note) : Prop :=
  (hit n = true -> hit n' = true) /\ (missed n = true -> missed n' = true).

(** ** Shape of a generated chart *)

(** What every note pushed by [analyzeAudio] looks like, and where it comes
    from: its id is its index, its flags are pristine, its lane follows
    the pattern of its index and is one of the four, its time is the
    start of an analysed chunk. *)
Record chart_shape (sampleRate : Q) (data : list Q) (ns : list Note) : Prop := {
  shape_id : forall i n, ns !! i = Some n -> id n = noteId i;
  shape_flags : forall n, n ∈ ns -> hit n = false /\ missed n = false /\ visible n = true;
  shape_pattern : forall i n, ns !! i = Some n -> lane n = laneOf i (time n);
  shape_lane : forall n, n ∈ ns -> (0 <= lane n <= 3)%Z;
  shape_time : forall n, n ∈ ns ->
     exists k, time n = inject_Z (Z.of_nat (k * SIZE)) / sampleRate /\
               (k * SIZE + SIZE < length data)%nat
}.

(** The state of the loop before chunk [k] on a signal whose chunks all
    have the energy [c]. *)
Definition steady_inv (c : Q) (k : nat) (st : Analysis) : Prop :=
  a_notes st = [] /\ lastNoteTime st = 0 /\
  Forall (fun x => x == c) (energyHistory st) /\
  (k <> 0%nat -> energyHistory st <> []).

(** ** Bookkeeping of the engine *)

(** Number of notes on which the flag [p] is set. *)
Definition countFlag (p : Note -> bool) (ns : list Note) : nat :=
  length (filter (fun n => p n = true) ns).

(** The ways in which an event other than a restart acts on the runtime
    notes and the stats: not at all, one judged press, one sweep. *)
Inductive effect (g g' : Engine) : Prop :=
| effect_none :
    notesRef g' = notesRef g -> stats g' = stats g -> effect g g'
| effect_press i note d :
    notesRef g !! i = Some note -> hit note = false -> missed note = false ->
    notesRef g' = alter setHit i (notesRef g) ->
    stats g' = judgeStats (judge d) (stats g) -> effect g g'
| effect_sweep ct :
    notesRef g' = sweepNote ct <$> notesRef g ->
    stats g' = Nat.iter (countResolved ct (notesRef g)) missStats (stats g) ->
    effect g g'.

(** The bookkeeping that every reachable state satisfies. *)
Record ledger (g : Engine) : Prop := {
  ledger_total :
    (perfect (stats g) + good (stats g) + miss (stats g)
     = Z.of_nat (countFlag hit (notesRef g)) + Z.of_nat (countFlag missed (notesRef g)))%Z;
  ledger_hits : (perfect (stats g) + good (stats g) <= Z.of_nat (countFlag hit (notesRef g)))%Z;
  ledger_combo : (0 <= combo (stats g) <= maxCombo (stats g))%Z;
  ledger_maxCombo : (maxCombo (stats g) <= perfect (stats g) + good (stats g))%Z;
  ledger_counters : (0 <= perfect (stats g) /\ 0 <= good (stats g) /\ 0 <= miss (stats g))%Z;
  ledger_score_low : (300 * perfect (stats g) + 100 * good (stats g) <= score (stats g))%Z;
  ledger_score_high :
    (score (stats g) <= 300 * perfect (stats g) + 100 * good (stats g)
                        + maxCombo (stats g) * (perfect (stats g) + good (stats g)))%Z
}.

(** ** Runs of frames and presses *)

(** The latest transport time among a frame at clock [now] and the frames
    at the clocks [nows], as the engine [g] reads them. *)
Definition latest (g : Engine) (now : Q) (nows : list Q) : Q :=
  fold_left (fun m now' => Qmax m (elapsed now' g)) nows (elapsed now g).



(** Every note of [ns] pressed in its own lane at its own time, in chart
    order, on an engine whose clock anchor is [c0]. *)
Definition onTimePresses (c0 : Q) (ns : list Note) : list Event :=
  map (fun n => KeyLane (lane n) (c0 + time n)) ns.

(** ** Visualizer *)

(** The range of a byte of the spectrum. *)
Definition inByteRange (x : Q) : Prop := 0 <= x /\ x <= 255.

(** * Sample inputs *)

(** A computable stand-in for [Math.sqrt], used only to run the analyzer
    on the sample buffers below: the root rounded down to six decimals.
    It is exact on 0 and 1, the only energies those buffers produce. *)
Definition sqrtDown (q : Q) : Q :=
  let r := Qred q in
  Z.sqrt (Qnum r * Z.pos (Qden r) * 10 ^ 12) # (Qden r * 10 ^ 6).

(** Thirteen full-scale chunks, each after a silent chunk, at 20480 Hz:
    a loud chunk every 0.2 s, the first at 0.1 s. *)
Definition pulses : list Q :=
  mjoin (replicate 13 (replicate SIZE 0 ++ replicate SIZE 1)) ++ [0].

Definition pulseRate : Q := 20480.

(** The same samples written with other numerators and denominators. *)
Definition pulsesScaled : list Q := (fun x => x * (3 # 3)) <$> pulses.

(** Its chart: twelve notes at 0.3 s, 0.5 s, ..., 2.5 s (the pulse at
    0.1 s is debounced), lanes 0 1 2 3 0 1 2 3 2 3 2 3. *)
Definition pulseChart : list Note :=
  Eval vm_compute in analyzeAudio sqrtDown pulses pulseRate.

Definition pulseTrack : AnalyzedTrack := {| notes := pulseChart; duration := 26 # 10 |}.

(** The pulse track right after START, the audio clock reading 0. *)
Definition pulseGame : Engine := run pulseTrack [ClickStart 0] (mount pulseTrack).

(** Every note of the pulse track pressed exactly on time, then the end
    of the audio. *)
Definition perfectRun : list Event :=
  [ ClickStart 0;
    KeyLane 0 (3 # 10); KeyLane 1 (5 # 10); KeyLane 2 (7 # 10); KeyLane 3 (9 # 10);
    KeyLane 0 (11 # 10); KeyLane 1 (13 # 10); KeyLane 2 (15 # 10); KeyLane 3 (17 # 10);
    KeyLane 2 (19 # 10); KeyLane 3 (21 # 10); KeyLane 2 (23 # 10); KeyLane 3 (25 # 10);
    SourceEnded (26 # 10) ].

(** A track with a single note in lane 0 at time [t], and its game right
    after START. *)
Definition soloNote (t : Q) : Note :=
  {| id := noteId 0; time := t; lane := 0; hit := false; missed := false; visible := true |}.

Definition soloTrack (t : Q) : AnalyzedTrack := {| notes := [soloNote t]; duration := t + 5 |}.

Definition soloGame (t : Q) : Engine := run (soloTrack t) [ClickStart 0] (mount (soloTrack t)).



(** Three chunks of a full-scale constant signal. *)
Definition plateau : list Q := replicate (3 * SIZE) 1.

(** Silent chunks alternating with chunks that hold a single full-scale
    sample: the energy jumps (to about 0.022), but never above
    [MIN_THRESHOLD]. *)
Definition whisper : list Q :=
  mjoin (replicate 3 (replicate SIZE 0 ++ 1 :: replicate (SIZE - 1) 0)) ++ [0].

(** The pulse game after a press of lane 0 at 0.3 s (the first note). *)
Definition pulseGameHit : Engine := step pulseTrack (KeyLane 0 (3 # 10)) pulseGame.

(** * Theorems *)

(** ** Boolean comparisons as propositions *)

Lemma Qgtb_lt a b : Qgtb a b = true <-> b < a.
Proof.
  unfold Qgtb. rewrite negb_true_iff, <- not_true_iff_false, Qle_bool_iff.
  split; [apply Qnot_le_lt | apply Qlt_not_le].
Qed.

Lemma Qgtb_le a b : Qgtb a b = false <-> a <= b.
Proof. unfold Qgtb. rewrite negb_false_iff. apply Qle_bool_iff. Qed.

Lemma Qleb_le a b : Qleb a b = true <-> a <= b.
Proof. apply Qle_bool_iff. Qed.

Lemma Qleb_gt a b : Qleb a b = false <-> b < a.
Proof.
  unfold Qleb. rewrite <- not_true_iff_false, Qle_bool_iff.
  split; [apply Qnot_le_lt | apply Qlt_not_le].
Qed.

(** Turns the boolean comparisons among the hypotheses into inequalities. *)
Ltac qprop :=
  repeat match goal with
  | H : Qleb _ _ = true |- _ => apply Qleb_le in H
  | H : Qleb _ _ = false |- _ => apply Qleb_gt in H
  | H : Qle_bool _ _ = true |- _ => apply Qle_bool_iff in H
  | H : Qle_bool _ _ = false |- _ => apply Qleb_gt in H
  | H : Qgtb _ _ = true |- _ => apply Qgtb_lt in H
  | H : Qgtb _ _ = false |- _ => apply Qgtb_le in H
  end.

(** * The chart generator *)

(** ** Termination of the loop and its invariant *)

Section AnalyzerFacts.
Variable sqrt : Q -> Q.
Variable sampleRate : Q.
Variable data : list Q.

Lemma loop_extra_fuel fuel : forall i st k,
  (length data <= i + fuel * SIZE)%nat ->
  loop sqrt (fuel + k) sampleRate data i st = loop sqrt fuel sampleRate data i st.
Proof.
  induction fuel as [|fuel IH]; intros i st k Hlen.
  - destruct k as [|k]; [reflexivity|]. cbn [Nat.add loop].
    destruct (Z.ltb_spec (Z.of_nat i) (Z.of_nat (length data) - Z.of_nat SIZE)); [|reflexivity].
    unfold SIZE in *. lia.
  - cbn [Nat.add loop].
    destruct (Z.of_nat i <? Z.of_nat (length data) - Z.of_nat SIZE)%Z; [|reflexivity].
    apply IH. unfold SIZE in *. lia.
Qed.

Lemma loop_fuel_enough k :
  a_notes (loop sqrt (length data + k) sampleRate data 0 analysis0) = analyzeAudio sqrt data sampleRate.
Proof.
  unfold analyzeAudio. rewrite loop_extra_fuel; [reflexivity|]. unfold SIZE. lia.
Qed.

Lemma chart_inv0 : chart_inv analysis0.
Proof.
  split; cbn.
  - reflexivity.
  - intros n Hn. inversion Hn.
  - intros i n1 n2 H. discriminate.
Qed.

Lemma lastTime_nonneg ns :
  (forall n, n ∈ ns -> MIN_NOTE_GAP < time n) -> 0 <= lastTime ns.
Proof.
  intros H. unfold lastTime. destruct (last ns) as [n|] eqn:E; cbn; [|lra].
  apply last_Some_elem_of in E. apply H in E. unfold MIN_NOTE_GAP in E. lra.
Qed.

Lemma loopBody_inv i st : chart_inv st -> chart_inv (loopBody sqrt sampleRate data i st).
Proof.
  intros [Hlast Hlate Hgap]. unfold loopBody.
  destruct (Qgtb (chunkRms sqrt data i) _ && Qgtb _ MIN_THRESHOLD); [|by split].
  destruct (Qgtb _ MIN_NOTE_GAP) eqn:Hacc; [|by split].
  apply Qgtb_lt in Hacc. rewrite Hlast in Hacc.
  pose proof (lastTime_nonneg _ Hlate) as Hnn.
  split; cbn.
  - unfold lastTime. by rewrite last_snoc.
  - intros n [Hn|Hn]%elem_of_app; [by apply Hlate|].
    apply list_elem_of_singleton in Hn. subst n. cbn. lra.
  - intros j n1 n2 H1 H2.
    apply lookup_app_Some in H2 as [H2|[Hle H2]].
    + rewrite lookup_app_l in H1 by (apply lookup_lt_Some in H2; lia). eauto.
    + apply list_lookup_singleton_Some in H2 as [Hj <-]. cbn.
      assert (length (a_notes st) = S j) as Hlen by lia.
      rewrite lookup_app_l in H1 by lia.
      unfold lastTime in Hacc. rewrite last_lookup, Hlen in Hacc. cbn in Hacc.
      rewrite H1 in Hacc. cbn in Hacc. lra.
Qed.

Lemma loop_inv fuel : forall i st, chart_inv st -> chart_inv (loop sqrt fuel sampleRate data i st).
Proof.
  induction fuel as [|fuel IH]; intros i st Hst; cbn [loop]; [done|].
  destruct (_ <? _)%Z; [|done]. by apply IH, loopBody_inv.
Qed.

Lemma analyzeAudio_inv : chart_inv (loop sqrt (length data) sampleRate data 0 analysis0).
Proof. apply loop_inv, chart_inv0. Qed.

End AnalyzerFacts.

(** ** The analyzer respects equality of numbers *)

Lemma Qgtb_comp a1 a2 b1 b2 : a1 == a2 -> b1 == b2 -> Qgtb a1 b1 = Qgtb a2 b2.
Proof. intros Ha Hb. unfold Qgtb. by rewrite Ha, Hb. Qed.

Lemma sumsq_equiv l1 l2 : Forall2 Qeq l1 l2 -> forall a1 a2, a1 == a2 ->
  fold_left (fun sum val => sum + val * val) l1 a1 == fold_left (fun sum val => sum + val * val) l2 a2.
Proof.
  induction 1 as [|x y l1 l2 Hxy _ IH]; intros a1 a2 Ha; cbn; [done|].
  apply IH. by rewrite Ha, Hxy.
Qed.

Lemma sum_equiv l1 l2 : Forall2 Qeq l1 l2 -> forall a1 a2, a1 == a2 ->
  fold_left Qplus l1 a1 == fold_left Qplus l2 a2.
Proof.
  induction 1 as [|x y l1 l2 Hxy _ IH]; intros a1 a2 Ha; cbn; [done|].
  apply IH. by rewrite Ha, Hxy.
Qed.

Lemma localAverage_equiv h1 h2 : Forall2 Qeq h1 h2 -> localAverage h1 == localAverage h2.
Proof.
  intros H. unfold localAverage. rewrite <- (Forall2_length _ _ _ H).
  destruct (0 <? length h1)%nat; [|reflexivity].
  by rewrite (sum_equiv _ _ H 0 0).
Qed.

Lemma pushHistory_equiv h1 h2 r1 r2 :
  Forall2 Qeq h1 h2 -> r1 == r2 -> Forall2 Qeq (pushHistory h1 r1) (pushHistory h2 r2).
Proof.
  intros H Hr. unfold pushHistory.
  assert (Forall2 Qeq (h1 ++ [r1]) (h2 ++ [r2])) as Happ.
  { apply Forall2_app; [done|]. by constructor. }
  rewrite <- (Forall2_length _ _ _ Happ).
  destruct (HISTORY_SIZE <? _)%nat; [|done]. by apply Forall2_drop.
Qed.

Lemma laneOf_equiv b t1 t2 : t1 == t2 -> laneOf b t1 = laneOf b t2.
Proof.
  intros Ht. unfold laneOf.
  assert (Qfloor (t1 * 100) = Qfloor (t2 * 100)) as -> by (apply Qfloor_comp; by rewrite Ht).
  reflexivity.
Qed.

Section Determinism.
Variable sqrt : Q -> Q.
Hypothesis sqrt_comp : forall x y, x == y -> sqrt x == sqrt y.
Variables data1 data2 : list Q.
Variables rate1 rate2 : Q.
Hypothesis data_equiv : Forall2 Qeq data1 data2.
Hypothesis rate_equiv : rate1 == rate2.

Lemma chunkRms_equiv i : chunkRms sqrt data1 i == chunkRms sqrt data2 i.
Proof.
  unfold chunkRms. apply sqrt_comp.
  rewrite (sumsq_equiv (take SIZE (drop i data1)) (take SIZE (drop i data2))) with (a2 := 0);
    [reflexivity| |reflexivity].
  by apply Forall2_take, Forall2_drop.
Qed.

Lemma loopBody_equiv i s1 s2 :
  analysis_equiv s1 s2 ->
  analysis_equiv (loopBody sqrt rate1 data1 i s1) (loopBody sqrt rate2 data2 i s2).
Proof.
  intros [Hn Hh Hl]. unfold loopBody.
  pose proof (chunkRms_equiv i) as Hr.
  pose proof (localAverage_equiv _ _ Hh) as Ha.
  pose proof (pushHistory_equiv _ _ _ _ Hh Hr) as Hp.
  rewrite (Qgtb_comp (chunkRms sqrt data1 i) (chunkRms sqrt data2 i)
             (localAverage (energyHistory s1) * MULTIPLIER)
             (localAverage (energyHistory s2) * MULTIPLIER)) by (done || by rewrite Ha).
  rewrite (Qgtb_comp (chunkRms sqrt data1 i) (chunkRms sqrt data2 i) MIN_THRESHOLD MIN_THRESHOLD)
    by done.
  destruct (Qgtb (chunkRms sqrt data2 i) _ && Qgtb _ MIN_THRESHOLD); [|by split].
  assert (inject_Z (Z.of_nat i) / rate1 == inject_Z (Z.of_nat i) / rate2) as Ht
    by (by rewrite rate_equiv).
  rewrite (Qgtb_comp (inject_Z (Z.of_nat i) / rate1 - lastNoteTime s1)
             (inject_Z (Z.of_nat i) / rate2 - lastNoteTime s2) MIN_NOTE_GAP MIN_NOTE_GAP)
    by (done || by rewrite Ht, Hl).
  destruct (Qgtb _ MIN_NOTE_GAP); [|by split].
  split; cbn; [|done|done].
  apply Forall2_app; [done|]. constructor; [|constructor].
  rewrite <- (Forall2_length _ _ _ Hn), (laneOf_equiv _ _ _ Ht). by repeat split.
Qed.

Lemma loop_equiv fuel : forall i s1 s2,
  analysis_equiv s1 s2 ->
  analysis_equiv (loop sqrt fuel rate1 data1 i s1) (loop sqrt fuel rate2 data2 i s2).
Proof.
  induction fuel as [|fuel IH]; intros i s1 s2 Hs; cbn [loop]; [done|].
  rewrite <- (Forall2_length _ _ _ data_equiv).
  destruct (_ <? _)%Z; [|done]. by apply IH, loopBody_equiv.
Qed.

End Determinism.

(** ** Silence *)

Section Silence.
Variable sqrt : Q -> Q.
Hypothesis sqrt_zero : forall x, x == 0 -> sqrt x == 0.
Variable data : list Q.
Variable sampleRate : Q.
Hypothesis silent : Forall (fun x => x == 0) data.






End Silence.

(** ** The stand-in square root *)

Lemma sqrtDown_comp x y : x == y -> sqrtDown x == sqrtDown y.
Proof. intros H. unfold sqrtDown. by rewrite (Qred_complete x y H). Qed.


(** ** Spacing, first note, determinism *)

(** C6: in the chart generated from any samples and any sample rate, each
    note lies at least [MIN_NOTE_GAP] (0.15 s) after the note before it in
    the global sequence, whatever their lanes; hence times are
    non-decreasing. *)
Theorem chart_min_gap sqrt data sampleRate i n1 n2 :
  analyzeAudio sqrt data sampleRate !! i = Some n1 ->
  analyzeAudio sqrt data sampleRate !! S i = Some n2 ->
  MIN_NOTE_GAP <= time n2 - time n1 /\ time n1 <= time n2.
Proof.
  intros H1 H2.
  pose proof (inv_gap _ (analyzeAudio_inv sqrt sampleRate data) i n1 n2 H1 H2) as Hgap.
  unfold MIN_NOTE_GAP in *. split; lra.
Qed.

Lemma chart_min_gap_witness :
  pulseChart !! 0%nat = Some (mkNote (noteId 0) (6144 # 20480) 0 false false true) /\
  pulseChart !! 1%nat = Some (mkNote (noteId 1) (10240 # 20480) 1 false false true) /\
  MIN_NOTE_GAP <= (10240 # 20480) - (6144 # 20480) /\ (6144 # 20480) <= (10240 # 20480).
Proof.
  split; [reflexivity|]. split; [reflexivity|].
  apply (chart_min_gap sqrtDown pulses pulseRate 0
           (mkNote (noteId 0) (6144 # 20480) 0 false false true)
           (mkNote (noteId 1) (10240 # 20480) 1 false false true));
    vm_compute; reflexivity.
Defined.

(** C10: every generated note, the first included, has a time strictly
    greater than [MIN_NOTE_GAP]; with no note accepted yet and
    [lastNoteTime] still 0, an iteration whose chunk starts within the
    first 0.15 s adds no note, whatever the energies. *)
Theorem chart_notes_after_gap sqrt data sampleRate :
  (forall n, n ∈ analyzeAudio sqrt data sampleRate -> MIN_NOTE_GAP < time n) /\
  (forall i history,
      inject_Z (Z.of_nat i) / sampleRate <= MIN_NOTE_GAP ->
      a_notes (loopBody sqrt sampleRate data i
                 {| a_notes := []; energyHistory := history; lastNoteTime := 0 |}) = []).
Proof.
  split.
  - apply (inv_late _ (analyzeAudio_inv sqrt sampleRate data)).
  - intros i history Hearly. unfold loopBody. cbn [a_notes energyHistory lastNoteTime].
    destruct (_ && _); [|reflexivity].
    assert (Qgtb (inject_Z (Z.of_nat i) / sampleRate - 0) MIN_NOTE_GAP = false) as ->;
      [|reflexivity].
    apply Qgtb_le. lra.
Qed.

Lemma chart_notes_after_gap_witness :
  mkNote (noteId 0) (6144 # 20480) 0 false false true ∈ analyzeAudio sqrtDown pulses pulseRate /\
  MIN_NOTE_GAP < 6144 # 20480 /\
  chunkRms sqrtDown pulses 2048 == 1 /\
  inject_Z (Z.of_nat 2048) / pulseRate <= MIN_NOTE_GAP /\
  a_notes (loopBody sqrtDown pulseRate pulses 2048
             {| a_notes := []; energyHistory := [0]; lastNoteTime := 0 |}) = [].
Proof.
  destruct (chart_notes_after_gap sqrtDown pulses pulseRate) as [Hlate Hfirst].
  assert (mkNote (noteId 0) (6144 # 20480) 0 false false true
            ∈ analyzeAudio sqrtDown pulses pulseRate) as Hin.
  { apply list_elem_of_lookup. exists 0%nat. vm_compute. reflexivity. }
  split; [exact Hin|]. split; [exact (Hlate _ Hin)|].
  split; [vm_compute; reflexivity|].
  assert (inject_Z (Z.of_nat 2048) / pulseRate <= MIN_NOTE_GAP) as Hearly
    by (vm_compute; discriminate).
  split; [exact Hearly|]. exact (Hfirst 2048%nat [0] Hearly).
Defined.

(** C7: the chart is a function of the sample values and the sample rate
    alone: inputs that are equal as numbers yield charts with the same
    ids, times and lanes, note for note; and the fuel of the model has no
    say in the result.  (No step of the embedding consults anything but
    its arguments.) *)
Theorem chart_deterministic sqrt data1 data2 rate1 rate2 :
  (forall x y, x == y -> sqrt x == sqrt y) ->
  Forall2 Qeq data1 data2 -> rate1 == rate2 ->
  Forall2 note_equiv (analyzeAudio sqrt data1 rate1) (analyzeAudio sqrt data2 rate2) /\
  forall k, a_notes (loop sqrt (length data1 + k) rate1 data1 0 analysis0)
            = analyzeAudio sqrt data1 rate1.
Proof.
  intros Hsqrt Hdata Hrate. split.
  - unfold analyzeAudio. rewrite <- (Forall2_length _ _ _ Hdata).
    apply eqv_notes, (loop_equiv sqrt Hsqrt data1 data2 rate1 rate2 Hdata Hrate).
    split; cbn; [constructor | constructor | reflexivity].
  - intros k. apply loop_fuel_enough.
Qed.

Lemma chart_deterministic_witness :
  Forall2 Qeq pulses pulsesScaled /\ pulseRate == 40960 # 2 /\
  Forall2 note_equiv (analyzeAudio sqrtDown pulses pulseRate)
    (analyzeAudio sqrtDown pulsesScaled (40960 # 2)).
Proof.
  assert (Forall2 Qeq pulses pulsesScaled) as Hd.
  { apply Forall2_fmap_r, Forall_Forall2_diag, Forall_forall. intros x _. cbn. ring. }
  assert (pulseRate == 40960 # 2) as Hr by reflexivity.
  split; [exact Hd|]. split; [exact Hr|].
  apply (chart_deterministic sqrtDown pulses pulsesScaled pulseRate (40960 # 2)
           sqrtDown_comp Hd Hr).
Defined.

(** * The judgment engine *)

(** ** Presses *)

Lemma isTarget_candidate l t n : isTarget l t n = true <-> candidate l t n.
Proof.
  unfold isTarget, candidate. rewrite !andb_true_iff, !negb_true_iff, Z.eqb_eq, Qleb_le.
  cbn. tauto.
Qed.

Lemma judge_PERFECT d : judge d = PERFECT <-> d <= 8 # 100.
Proof.
  unfold judge. cbn [JUDGMENT_WINDOWS].
  destruct (Qleb d (8 # 100)) eqn:E1; [|destruct (Qleb d (15 # 100)) eqn:E2];
    qprop; split; intros; try discriminate; try lra; done.
Qed.



Lemma judge_not_NONE d : judge d <> NONE.
Proof. unfold judge. by repeat case_match. Qed.

Lemma handleInput_found l now g i note :
  Playing g ->
  list_find (fun n => isTarget l (now - startTime g) n = true) (notesRef g) = Some (i, note) ->
  notesRef (handleInput l now g) = alter setHit i (notesRef g) /\
  stats (handleInput l now g) = judgeStats (judge (Qabs (time note - (now - startTime g)))) (stats g) /\
  lastJudgment (handleInput l now g) = Some (judge (Qabs (time note - (now - startTime g)))).
Proof.
  intros (Hp & Hq & Ha) Hf. unfold handleInput. rewrite Hp, Hq, Ha. cbn. by rewrite Hf.
Qed.




(** C4: on a judged press, a PERFECT or GOOD tier adds 1 to the combo,
    makes maxCombo the maximum of its old value and the new combo, and
    adds to the score the tier base (300, 100) plus floor(newCombo/10)*10
    when newCombo > 10 (the combo after the increment); a MISS tier zeroes
    the combo and leaves the score; from combo 10 and score 0 a PERFECT
    gives combo 11 and score 310. *)
Theorem press_updates_stats l now g i note :
  Playing g ->
  list_find (fun n => isTarget l (now - startTime g) n = true) (notesRef g) = Some (i, note) ->
  let j := judge (Qabs (time note - (now - startTime g))) in
  let s := stats g in
  let s' := stats (handleInput l now g) in
  let bonus := (if (10 <? combo s + 1) then (combo s + 1) / 10 * 10 else 0)%Z in
  (j = PERFECT -> combo s' = (combo s + 1)%Z /\ maxCombo s' = Z.max (maxCombo s) (combo s + 1) /\
                  score s' = (score s + 300 + bonus)%Z) /\
  (j = GOOD -> combo s' = (combo s + 1)%Z /\ maxCombo s' = Z.max (maxCombo s) (combo s + 1) /\
               score s' = (score s + 100 + bonus)%Z) /\
  (j = MISS -> combo s' = 0%Z /\ score s' = score s) /\
  (j = PERFECT -> combo s = 10%Z -> score s = 0%Z -> combo s' = 11%Z /\ score s' = 310%Z).
Proof.
  intros Hplay Hf j s s' bonus.
  destruct (handleInput_found l now g i note Hplay Hf) as (_ & Hs & _).
  fold j s s' in Hs. subst s'. rewrite Hs. clear Hs. subst bonus.
  split; [|split; [|split]]; intros E; rewrite E; cbn.
  - repeat split; lia.
  - repeat split; lia.
  - split; lia.
  - intros E1 E2. rewrite E1, E2. split; reflexivity.
Qed.

Lemma press_updates_stats_witness :
  let g := withStats {| score := 0; combo := 10; maxCombo := 10;
                        perfect := 0; good := 0; miss := 0 |} (soloGame 10) in
  Playing g /\
  combo (stats (handleInput 0 10 g)) = 11%Z /\ score (stats (handleInput 0 10 g)) = 310%Z.
Proof.
  intros g. assert (Playing g) as Hp by (repeat split). split; [exact Hp|].
  destruct (press_updates_stats 0%Z 10 g 0%nat (soloNote 10) Hp eq_refl) as (_ & _ & _ & Hex).
  apply Hex; reflexivity.
Defined.

Lemma alter_as_insert {A} (f : A -> A) (l : list A) i x :
  l !! i = Some x -> alter f i l = <[i := f x]> l.
Proof.
  revert i. induction l as [|y l IH]; intros [|i] H; try done.
  - by injection H as ->.
  - cbn in *. f_equal. by apply IH.
Qed.

(** C8 (amended): for a press in lane [l] at transport time [t] while
    playing, the note judged is the first one in chart order among the
    notes of lane [l] that are neither hit nor missed and lie within
    0.25 s of [t]; exactly that note is marked hit. *)
Theorem press_judges_first_candidate l now g i note :
  Playing g ->
  let t := now - startTime g in
  notesRef g !! i = Some note ->
  candidate l t note ->
  (forall k n, (k < i)%nat -> notesRef g !! k = Some n -> ~ candidate l t n) ->
  notesRef (handleInput l now g) = <[i := setHit note]> (notesRef g).
Proof.
  intros Hplay t Hi Hc Hfirst.
  assert (list_find (fun n => isTarget l t n = true) (notesRef g) = Some (i, note)) as Hf.
  { apply list_find_Some. split; [done|]. split; [by apply isTarget_candidate|].
    intros k n Hk Hlt Ht. apply (Hfirst k n Hlt Hk). by apply isTarget_candidate. }
  destruct (handleInput_found l now g i note Hplay Hf) as (Hn & _ & _).
  rewrite Hn. by apply alter_as_insert.
Qed.

Lemma press_judges_first_candidate_witness :
  Playing pulseGame /\
  notesRef (handleInput 2 (214 # 100) pulseGame)
  = <[8%nat := setHit (mkNote (noteId 8) (38912 # 20480) 2 false false true)]>
      (notesRef pulseGame).
Proof.
  assert (Playing pulseGame) as Hp by (repeat split).
  split; [exact Hp|].
  apply (press_judges_first_candidate 2 (214 # 100) pulseGame 8
           (mkNote (noteId 8) (38912 # 20480) 2 false false true) Hp).
  - reflexivity.
  - repeat split. vm_compute. discriminate.
  - intros k n Hk Hn (Hl & _ & _ & Hd).
    do 8 (destruct k as [|k];
          [vm_compute in Hn; injection Hn as <-;
           first [vm_compute in Hl; discriminate
                 | vm_compute in Hd; exfalso; apply Hd; reflexivity]|]).
    lia.
Defined.

(** C8 as stated fails: at transport time 2.14 s, lane 2 of the pulse
    track holds note 8 (1.9 s, 0.24 s away) and note 10 (2.3 s, 0.16 s
    away), both unresolved and inside the window.  Note 10 is the closest,
    the press marks note 8. *)
Lemma press_skips_closest_note :
  let g := pulseGame in
  let t := (214 # 100) - startTime g in
  let n8 := mkNote (noteId 8) (38912 # 20480) 2 false false true in
  let n10 := mkNote (noteId 10) (47104 # 20480) 2 false false true in
  Playing g /\
  notesRef g !! 8%nat = Some n8 /\ notesRef g !! 10%nat = Some n10 /\
  candidate 2 t n8 /\ candidate 2 t n10 /\
  (forall n, n ∈ notesRef g -> candidate 2 t n -> Qabs (time n10 - t) <= Qabs (time n - t)) /\
  Qabs (time n10 - t) < Qabs (time n8 - t) /\
  notesRef (handleInput 2 (214 # 100) g) !! 10%nat = Some n10 /\
  notesRef (handleInput 2 (214 # 100) g) !! 8%nat = Some (setHit n8).
Proof.
  intros g t n8 n10.
  split; [repeat split|]. split; [reflexivity|]. split; [reflexivity|].
  split; [repeat split; vm_compute; discriminate|].
  split; [repeat split; vm_compute; discriminate|].
  split; [|split; [reflexivity|split; reflexivity]].
  intros n Hn (Hl & _ & _ & Hd).
  repeat (apply elem_of_cons in Hn as [->|Hn];
          [first [vm_compute in Hl; discriminate
                 | vm_compute in Hd; exfalso; apply Hd; reflexivity
                 | vm_compute; discriminate]|]).
  by apply elem_of_nil in Hn.
Qed.

(** ** Pause and resume *)



(** ** The miss sweep *)

Lemma sweep_spec ct ns : forall s j,
  sweep ct ns s j =
  (sweepNote ct <$> ns,
   Nat.iter (countResolved ct ns) missStats s,
   if (countResolved ct ns =? 0)%nat then j else Some MISS).
Proof.
  induction ns as [|n ns IH]; intros s j; [reflexivity|].
  cbn [sweep fmap list_fmap]. unfold countResolved, sweepNote, resolves in *.
  rewrite filter_cons.
  destruct (hit n) eqn:Hh; cbn [negb andb].
  - rewrite IH. by rewrite decide_False by discriminate.
  - destruct (overdue ct n) eqn:Ho.
    + rewrite IH, decide_True by reflexivity. cbn [length Nat.eqb].
      rewrite Nat.iter_succ_r. by destruct (_ =? 0)%nat.
    + rewrite IH. by rewrite decide_False by discriminate.
Qed.


Lemma iter_missStats_combo k s : combo (Nat.iter (S k) missStats s) = 0%Z.
Proof. reflexivity. Qed.

Lemma iter_missStats_score k s : score (Nat.iter k missStats s) = score s.
Proof. induction k as [|k IH]; [done|]. by rewrite Nat.iter_succ. Qed.


Lemma countResolved_none ct ns :
  (forall m, m ∈ ns -> resolves ct m = false) -> countResolved ct ns = 0%nat.
Proof.
  unfold countResolved. induction ns as [|x ns IH]; intros H; [done|].
  rewrite filter_cons_False.
  - apply IH. intros m Hm. apply H. by right.
  - rewrite (H x) by left. discriminate.
Qed.

Lemma resolves_true ct n :
  resolves ct n = true <-> hit n = false /\ missed n = false /\ time n + (25 # 100) < ct.
Proof.
  unfold resolves, overdue. rewrite !andb_true_iff, !negb_true_iff, Qgtb_lt. cbn. tauto.
Qed.

Lemma resolves_missed ct n : missed n = true -> resolves ct n = false.
Proof. intros H. unfold resolves, overdue. rewrite H. cbn. apply andb_false_r. Qed.

Lemma render_notes now g : notesRef (render now g) = sweepNote (elapsed now g) <$> notesRef g.
Proof. unfold render. by rewrite sweep_spec. Qed.

Lemma render_stats now g :
  stats (render now g) = Nat.iter (countResolved (elapsed now g) (notesRef g)) missStats (stats g).
Proof. unfold render. by rewrite sweep_spec. Qed.

Lemma render_elapsed now now' g : elapsed now' (render now g) = elapsed now' g.
Proof. unfold render, elapsed. by destruct (sweep _ _ _ _) as [[??]?]. Qed.




(** ** Note flags along runs *)

Lemma advances_refl ev n : advances ev n n.
Proof. unfold advances. by repeat split. Qed.

Lemma advances_same ev ns : Forall2 (advances ev) ns ns.
Proof. apply Forall_Forall2_diag, Forall_forall. intros. apply advances_refl. Qed.

Lemma handleInput_notes l now g :
  notesRef (handleInput l now g) = notesRef g \/
  exists i note, notesRef g !! i = Some note /\ hit note = false /\ missed note = false /\
                 notesRef (handleInput l now g) = alter setHit i (notesRef g).
Proof.
  unfold handleInput.
  destruct (negb (isPlaying g) || isPaused g); [by left|].
  destruct (negb (audioContext g)); [by left|].
  destruct (list_find _ _) as [[i note]|] eqn:Hf; [|by left].
  right. exists i, note. apply list_find_Some in Hf as (Hi & Ht & _).
  apply isTarget_candidate in Ht as (_ & Hh & Hm & _). done.
Qed.

Lemma handleInput_advances l now g :
  Forall2 (advances (KeyLane l now)) (notesRef g) (notesRef (handleInput l now g)).
Proof.
  destruct (handleInput_notes l now g) as [->|(i & note & _ & _ & _ & ->)];
    [apply advances_same|].
  apply Forall2_alter_r; [apply advances_same|].
  intros x y _ _ (? & ? & ? & ? & ? & ? & ? & ?). unfold advances. cbn. by repeat split.
Qed.

Lemma sweepNote_advances now ct n : advances (Frame now) n (sweepNote ct n).
Proof.
  unfold sweepNote. destruct (resolves ct n); [|apply advances_refl].
  unfold advances. cbn. by repeat split.
Qed.

Lemma render_advances now g :
  Forall2 (advances (Frame now)) (notesRef g) (notesRef (render now g)).
Proof.
  rewrite render_notes. apply Forall2_fmap_r, Forall_Forall2_diag, Forall_forall.
  intros n _. apply sweepNote_advances.
Qed.

Lemma pristine_exclusive ns : pristine ns -> Forall exclusive ns.
Proof.
  intros H. eapply Forall_impl; [exact H|]. intros n [Hh _] [Hh' _]. congruence.
Qed.

Section ComponentFacts.
Variable track : AnalyzedTrack.

Lemma step_advances ev g :
  ev <> ClickRestart ->
  Forall2 (advances ev) (notesRef g) (notesRef (step track ev g)).
Proof.
  intros Hev. destruct ev as [now|l now|now|now|now| |now|now|now]; cbn [step].
  - destruct (_ && _); apply advances_same.
  - apply handleInput_advances.
  - destruct (isPlaying g) eqn:Hp.
    + unfold pauseGame. rewrite Hp. destruct (negb (audioContext g)); apply advances_same.
    + destruct (isPaused g); apply advances_same.
  - destruct (_ && _); [|apply advances_same].
    unfold pauseGame. destruct (_ || _); apply advances_same.
  - destruct (_ && _); apply advances_same.
  - done.
  - unfold timerFires. destruct (restartTimers g); apply advances_same.
  - destruct (isFinished g); [apply advances_same | apply render_advances].
  - unfold onended. destruct (Qgeb _ _); apply advances_same.
Qed.

Lemma step_restart g :
  notesRef (step track ClickRestart g) = notesRef g \/
  notesRef (step track ClickRestart g) = notes track.
Proof. cbn [step]. destruct (_ || _); [by right | by left]. Qed.

Lemma unchanged_exclusive ev g :
  ev <> ClickRestart -> isPress ev = false -> isFrame ev = false ->
  Forall exclusive (notesRef g) -> Forall exclusive (notesRef (step track ev g)).
Proof.
  intros Hev Hp Hf Hg. pose proof (step_advances ev g Hev) as Hadv.
  eapply Forall2_Forall_r; [exact Hadv|]. eapply Forall_impl; [exact Hg|].
  intros n Hn n' (_ & _ & _ & _ & _ & _ & Hh & Hm). rewrite Hp in Hh. rewrite Hf in Hm.
  assert (hit n' = hit n) as Eh
    by (destruct (hit n'), (hit n); try done; by (symmetry; apply Hh) || by apply Hh).
  assert (missed n' = missed n) as Em
    by (destruct (missed n'), (missed n); try done; by (symmetry; apply Hm) || by apply Hm).
  unfold exclusive. by rewrite Eh, Em.
Qed.

Lemma step_exclusive ev g :
  pristine (notes track) ->
  Forall exclusive (notesRef g) -> Forall exclusive (notesRef (step track ev g)).
Proof.
  intros Htrack Hg.
  destruct ev as [now|l now|now|now|now| |now|now|now];
    try (by apply unchanged_exclusive).
  - cbn [step].
    destruct (handleInput_notes l now g) as [->|(i & note & Hi & Hh & Hm & ->)]; [done|].
    apply Forall_alter; [done|]. intros x Hx _ [_ Hmx]. cbn in Hmx. congruence.
  - destruct (step_restart g) as [->| ->]; [done | by apply pristine_exclusive].
  - cbn [step]. destruct (isFinished g); [done|].
    rewrite render_notes. apply Forall_fmap. eapply Forall_impl; [exact Hg|].
    intros n Hn. cbn. unfold sweepNote. destruct (resolves _ n) eqn:Hr; [|done].
    apply resolves_true in Hr as (Hh & _). intros [Hh' _]. cbn in Hh'. congruence.
Qed.

(** In a reachable state [isPlaying] alone tells that a press gets past
    the guards of [handleInput]. *)
Lemma reachable_playing g : reachable track g -> isPlaying g = true -> Playing g.
Proof.
  unfold Playing.
  induction 1 as [|ev g Hg IH]; [discriminate|].
  destruct ev as [now|l now|now|now|now| |now|now|now]; cbn [step].
  - destruct (_ && _); [by cbn | done].
  - unfold handleInput. destruct (negb (isPlaying g) || isPaused g); [done|].
    destruct (negb (audioContext g)); [done|]. by destruct (list_find _ _) as [[??]|].
  - unfold pauseGame, resumeGame. destruct (isPlaying g) eqn:Hp.
    + destruct (_ || _); [by rewrite Hp in * | by cbn].
    + destruct (isPaused g); [by cbn | by rewrite Hp].
  - destruct (_ && _); [|done]. unfold pauseGame.
    destruct (_ || _); [done | by cbn].
  - destruct (_ && _); [by cbn | done].
  - destruct (_ || _); [by cbn | done].
  - unfold timerFires. destruct (restartTimers g); [done | by cbn].
  - destruct (isFinished g); [done|]. unfold render.
    by destruct (sweep _ _ _ _) as [[??]?].
  - unfold onended. destruct (Qgeb _ _); [by cbn | done].
Qed.

Lemma run_keepsFlags evs : forall g,
  ClickRestart ∉ evs ->
  Forall2 keepsFlags (notesRef g) (notesRef (run track evs g)).
Proof.
  unfold run.
  induction evs as [|ev evs IH]; intros g Hevs; cbn [fold_left].
  - apply Forall_Forall2_diag, Forall_forall. by intros n _.
  - apply not_elem_of_cons in Hevs as [Hev Hevs].
    eapply Forall2_trans; [|eapply step_advances; by eauto|by apply IH].
    intros x y z (_ & _ & _ & _ & H1 & H2 & _) [H3 H4]. split; auto.
Qed.

End ComponentFacts.

(** C3: for a chart whose notes start with both flags false, the mounted
    engine starts with both flags false; in every reachable state no note
    has both flags set; every event but the restart click keeps each
    note's chart data and its set flags, changes [hit] only if it is a
    lane press and [missed] only if it is a frame; the restart click
    leaves the notes or replaces them by the pristine chart; and along any
    run without a restart click a flag that is set stays set. *)
Theorem note_flags_exclusive_monotone track :
  pristine (notes track) ->
  pristine (notesRef (mount track)) /\
  forall g, reachable track g ->
    Forall exclusive (notesRef g) /\
    (forall ev, ev <> ClickRestart ->
       Forall2 (advances ev) (notesRef g) (notesRef (step track ev g))) /\
    (notesRef (step track ClickRestart g) = notesRef g \/
     pristine (notesRef (step track ClickRestart g))) /\
    (forall evs, ClickRestart ∉ evs ->
       Forall2 keepsFlags (notesRef g) (notesRef (run track evs g))).
Proof.
  intros Htrack. split; [done|]. intros g Hg. split; [|split; [|split]].
  - induction Hg as [|ev g Hg IH]; [by apply pristine_exclusive | by apply step_exclusive].
  - intros ev Hev. by apply step_advances.
  - destruct (step_restart track g) as [->|E]; [by left | right; by rewrite E].
  - intros evs Hevs. by apply run_keepsFlags.
Qed.

Lemma note_flags_exclusive_monotone_witness :
  pristine (notes pulseTrack) /\
  Forall exclusive (notesRef (run pulseTrack perfectRun (mount pulseTrack))).
Proof.
  assert (pristine (notes pulseTrack)) as Hp by (repeat constructor).
  split; [exact Hp|].
  destruct (note_flags_exclusive_monotone pulseTrack Hp) as [_ Hreach].
  apply Hreach. unfold run, perfectRun. cbn [fold_left]. repeat constructor.
Defined.

(** ** Result screen *)

Lemma accuracy_rounds n s :
  (0 < n)%nat ->
  accuracy n s
  = Finite (inject_Z (Qfloor (inject_Z (score s) / inject_Z (Z.of_nat n * 300) * 100 + (1 # 2)))).
Proof.
  intros Hn. unfold accuracy, jsDiv.
  destruct (Z.eqb_spec (Z.of_nat n * 300) 0) as [E|_]; [lia|].
  cbn [jsTimes100 jsRound jsOrZero]. set (k := Qfloor _).
  clearbody k.
  destruct (Qeq_bool (inject_Z k) 0) eqn:E; [|reflexivity].
  apply Qeq_bool_eq in E.
  assert (k = 0%Z) as -> by (unfold Qeq in E; cbn in E; lia).
  reflexivity.
Qed.

Lemma grade_thresholds q :
  (gradeOf (Finite q) = "S"%string <-> 95 <= q) /\
  (gradeOf (Finite q) = "A"%string <-> 90 <= q /\ q < 95) /\
  (gradeOf (Finite q) = "B"%string <-> 80 <= q /\ q < 90) /\
  (gradeOf (Finite q) = "C"%string <-> 70 <= q /\ q < 80) /\
  (gradeOf (Finite q) = "D"%string <-> 60 <= q /\ q < 70) /\
  (gradeOf (Finite q) = "F"%string <-> q < 60).
Proof.
  unfold gradeOf, jsGeb, Qgeb.
  repeat match goal with
         | |- context [Qle_bool ?k q] => destruct (Qle_bool k q) eqn:?
         end;
    qprop; repeat split; intros; try discriminate; lra.
Qed.

Lemma run_reachable track evs : forall g,
  reachable track g -> reachable track (run track evs g).
Proof.
  unfold run. induction evs as [|ev evs IH]; intros g Hg; cbn [fold_left]; [done|].
  by apply IH, reachable_step.
Qed.






(** * Further properties of the chart generator *)

(** ** Shape of the chart *)

Lemma noteId_inj i j : noteId i = noteId j -> i = j.
Proof.
  unfold noteId. cbn. intros [= H].
  assert (Some (Nat.to_uint i) = Some (Nat.to_uint j)) as [= E]
    by (by rewrite <- !NilEmpty.usu, H).
  by rewrite <- (DecimalNat.Unsigned.of_to i), <- (DecimalNat.Unsigned.of_to j), E.
Qed.

Lemma laneOf_range b t : 0 <= t -> (0 <= laneOf b t <= 3)%Z.
Proof.
  intros Ht. unfold laneOf.
  destruct (_ =? 0)%nat; [pose proof (Nat.mod_upper_bound (b mod 8) 4); lia|].
  destruct (_ =? 1)%nat.
  { pose proof (Nat.mod_upper_bound (b mod 8) 2). destruct (_ <? 8)%nat; lia. }
  destruct (_ =? 2)%nat; [pose proof (Nat.mod_upper_bound (b mod 8) 4); lia|].
  assert (0 <= Qfloor (t * 100))%Z as Hf.
  { change 0%Z with (Qfloor 0). apply Qfloor_resp_le. lra. }
  pose proof (Z.rem_bound_pos (Qfloor (t * 100)) 4 Hf). lia.
Qed.


Section ShapeFacts.
Variable sqrt : Q -> Q.
Variable sampleRate : Q.
Variable data : list Q.

Lemma loopBody_shape k st :
  (k * SIZE + SIZE < length data)%nat ->
  chart_inv st -> chart_shape sampleRate data (a_notes st) ->
  chart_shape sampleRate data (a_notes (loopBody sqrt sampleRate data (k * SIZE) st)).
Proof.
  intros Hk Hinv [Hid Hfl Hpa Hla Hti]. unfold loopBody.
  destruct (Qgtb (chunkRms sqrt data _) _ && Qgtb _ MIN_THRESHOLD); [|by split].
  destruct (Qgtb _ MIN_NOTE_GAP) eqn:Hacc; [|by split].
  apply Qgtb_lt in Hacc. rewrite (inv_last _ Hinv) in Hacc.
  pose proof (lastTime_nonneg _ (inv_late _ Hinv)) as Hnn.
  split; cbn [a_notes].
  - intros i n [Hi|[Hi Hn]]%lookup_app_Some; [by apply Hid|].
    apply list_lookup_singleton_Some in Hn as [Hz <-].
    assert (i = length (a_notes st)) as -> by lia. reflexivity.
  - intros n [Hn|Hn]%elem_of_app; [by apply Hfl|].
    apply list_elem_of_singleton in Hn. by subst n.
  - intros i n [Hi|[Hi Hn]]%lookup_app_Some; [by apply Hpa|].
    apply list_lookup_singleton_Some in Hn as [Hz <-].
    assert (i = length (a_notes st)) as -> by lia. reflexivity.
  - intros n [Hn|Hn]%elem_of_app; [by apply Hla|].
    apply list_elem_of_singleton in Hn. subst n. cbn.
    apply laneOf_range. unfold MIN_NOTE_GAP in Hacc. lra.
  - intros n [Hn|Hn]%elem_of_app; [by apply Hti|].
    apply list_elem_of_singleton in Hn. subst n. cbn. by exists k.
Qed.

Lemma loop_shape fuel : forall k st,
  chart_inv st -> chart_shape sampleRate data (a_notes st) ->
  chart_shape sampleRate data (a_notes (loop sqrt fuel sampleRate data (k * SIZE) st)).
Proof.
  induction fuel as [|fuel IH]; intros k st Hinv Hsh; cbn [loop]; [done|].
  destruct (Z.ltb_spec (Z.of_nat (k * SIZE)) (Z.of_nat (length data) - Z.of_nat SIZE)) as [Hlt|_];
    [|done].
  replace (k * SIZE + SIZE)%nat with (S k * SIZE)%nat by lia.
  apply IH; [by apply loopBody_inv|]. apply loopBody_shape; [lia|done|done].
Qed.

Lemma analyzeAudio_shape : chart_shape sampleRate data (analyzeAudio sqrt data sampleRate).
Proof.
  unfold analyzeAudio. apply (loop_shape _ 0%nat); [apply chart_inv0|].
  split; cbn; intros; try done; by apply elem_of_nil in H.
Qed.

(** Each note comes from a chunk after the first one. *)
Lemma note_chunk n :
  n ∈ analyzeAudio sqrt data sampleRate ->
  exists k, (1 <= k)%nat /\ time n = inject_Z (Z.of_nat (k * SIZE)) / sampleRate /\
            (k * SIZE + SIZE < length data)%nat.
Proof.
  intros Hn. destruct (shape_time _ _ _ analyzeAudio_shape n Hn) as (k & Ht & Hk).
  exists k. split; [|done].
  pose proof (inv_late _ (analyzeAudio_inv sqrt sampleRate data) n Hn) as Hlate.
  fold (analyzeAudio sqrt data sampleRate) in Hlate.
  destruct k as [|k]; [|lia].
  rewrite Ht in Hlate. cbn [Nat.mul Z.of_nat] in Hlate. unfold Qdiv, MIN_NOTE_GAP in Hlate.
  change (inject_Z 0) with 0 in Hlate. rewrite Qmult_0_l in Hlate. lra.
Qed.

(** With a positive sample rate, each note lies more than one chunk
    before the end of the audio. *)
Lemma note_inside_audio n :
  0 < sampleRate -> n ∈ analyzeAudio sqrt data sampleRate ->
  time n + inject_Z (Z.of_nat SIZE) / sampleRate
  < inject_Z (Z.of_nat (length data)) / sampleRate.
Proof.
  intros Hsr Hn. destruct (note_chunk n Hn) as (k & _ & -> & Hk).
  assert (inject_Z (Z.of_nat (k * SIZE)) + inject_Z (Z.of_nat SIZE)
          < inject_Z (Z.of_nat (length data))) as Hlt.
  { rewrite <- inject_Z_plus, <- Zlt_Qlt. lia. }
  unfold Qdiv. rewrite <- Qmult_plus_distr_l.
  apply Qmult_lt_compat_r; [by apply Qinv_lt_0_compat | done].
Qed.

Lemma loop_count fuel : forall i st,
  (length (a_notes st) * SIZE <= i)%nat ->
  (length (a_notes (loop sqrt fuel sampleRate data i st)) * SIZE
   <= Nat.max i (length data - 1))%nat.
Proof.
  induction fuel as [|fuel IH]; intros i st Hst; cbn [loop]; [lia|].
  destruct (Z.ltb_spec (Z.of_nat i) (Z.of_nat (length data) - Z.of_nat SIZE)) as [Hlt|_];
    [|lia].
  etrans; [apply IH|lia].
  unfold loopBody. repeat case_match; cbn [a_notes]; rewrite ?length_app; cbn [length];
    unfold SIZE in *; lia.
Qed.

Lemma kth_note_late : forall k n,
  analyzeAudio sqrt data sampleRate !! k = Some n ->
  inject_Z (Z.of_nat (S k)) * MIN_NOTE_GAP < time n.
Proof.
  pose proof (analyzeAudio_inv sqrt sampleRate data) as [_ Hlate Hgap].
  fold (analyzeAudio sqrt data sampleRate) in *.
  induction k as [|k IH]; intros n Hn.
  - apply list_elem_of_lookup_2 in Hn. apply Hlate in Hn.
    change (inject_Z (Z.of_nat 1)) with 1. lra.
  - destruct (lookup_lt_is_Some_2 (analyzeAudio sqrt data sampleRate) k) as [m Hm];
      [apply lookup_lt_Some in Hn; lia|].
    pose proof (IH m Hm) as IHm. pose proof (Hgap k m n Hm Hn) as Hg.
    rewrite (Nat2Z.inj_succ (S k)), <- Z.add_1_r, inject_Z_plus.
    change (inject_Z 1) with 1. lra.
Qed.

End ShapeFacts.

(** X1: every note of a generated chart lies in one of the four lanes
    0..3, so it indexes one of the four slots of the lane effects,
    whatever the samples, the sample rate and [Math.sqrt]. *)
Theorem chart_lanes_in_range sqrt data sampleRate i n :
  analyzeAudio sqrt data sampleRate !! i = Some n ->
  (0 <= lane n <= 3)%Z /\ (Z.to_nat (lane n) < 4)%nat.
Proof.
  intros Hn%list_elem_of_lookup_2.
  pose proof (shape_lane _ _ _ (analyzeAudio_shape sqrt sampleRate data) n Hn). lia.
Qed.

Lemma chart_lanes_in_range_witness :
  (0 <= 2 <= 3)%Z /\ (Z.to_nat 2 < 4)%nat.
Proof.
  apply (chart_lanes_in_range sqrtDown pulses pulseRate 8
           (mkNote (noteId 8) (38912 # 20480) 2 false false true)).
  vm_compute; reflexivity.
Defined.

(** X2: the i-th note of a generated chart has the id [note-i]; two notes
    have the same id only if they are the same entry; every note starts
    unresolved ([hit] and [missed] false) and visible. *)
Theorem chart_ids_unique sqrt data sampleRate i j n m :
  analyzeAudio sqrt data sampleRate !! i = Some n ->
  analyzeAudio sqrt data sampleRate !! j = Some m ->
  id n = noteId i /\ (id n = id m <-> i = j) /\
  hit n = false /\ missed n = false /\ visible n = true.
Proof.
  intros Hn Hm. pose proof (analyzeAudio_shape sqrt sampleRate data) as [Hid Hfl _ _ _].
  rewrite (Hid i n Hn), (Hid j m Hm). split; [done|]. split.
  - split; [apply noteId_inj | by intros ->].
  - apply Hfl. by eapply list_elem_of_lookup_2.
Qed.

Lemma chart_ids_unique_witness :
  noteId 0 = noteId 0 /\ (noteId 0 = noteId 1 <-> 0%nat = 1%nat) /\
  false = false /\ false = false /\ true = true.
Proof.
  apply (chart_ids_unique sqrtDown pulses pulseRate 0 1
           (mkNote (noteId 0) (6144 # 20480) 0 false false true)
           (mkNote (noteId 1) (10240 # 20480) 1 false false true));
    vm_compute; reflexivity.
Defined.



(** X4: with a positive sample rate, the time of every note is the start
    of an analysed chunk, [k * 2048 / sampleRate] for a chunk [k >= 1]
    that ends before the last sample, and the note lies more than one
    chunk before the end of the audio ([length / sampleRate]). *)
Theorem chart_times_on_chunk_grid sqrt data sampleRate i n :
  0 < sampleRate ->
  analyzeAudio sqrt data sampleRate !! i = Some n ->
  exists k, (1 <= k)%nat /\ (k * SIZE + SIZE < length data)%nat /\
            time n = inject_Z (Z.of_nat (k * SIZE)) / sampleRate /\
            time n + inject_Z (Z.of_nat SIZE) / sampleRate
            < inject_Z (Z.of_nat (length data)) / sampleRate.
Proof.
  intros Hsr Hn%list_elem_of_lookup_2.
  destruct (note_chunk sqrt sampleRate data n Hn) as (k & Hk1 & Ht & Hk).
  exists k. repeat split; try done. by apply (note_inside_audio sqrt).
Qed.

Lemma chart_times_on_chunk_grid_witness :
  exists k, (1 <= k)%nat /\ (k * SIZE + SIZE < length pulses)%nat /\
            6144 # 20480 = inject_Z (Z.of_nat (k * SIZE)) / pulseRate /\
            (6144 # 20480) + inject_Z (Z.of_nat SIZE) / pulseRate
            < inject_Z (Z.of_nat (length pulses)) / pulseRate.
Proof.
  apply (chart_times_on_chunk_grid sqrtDown pulses pulseRate 0
           (mkNote (noteId 0) (6144 # 20480) 0 false false true));
    vm_compute; reflexivity.
Defined.

(** X5: a chart has at most one note per 2048 samples
    ([notes * 2048 <= length - 1]), and a buffer of at most two chunks
    (4096 samples) yields no note at all. *)
Theorem chart_count_bound sqrt data sampleRate :
  (length (analyzeAudio sqrt data sampleRate) * SIZE <= length data - 1)%nat /\
  ((length data <= 2 * SIZE)%nat -> analyzeAudio sqrt data sampleRate = []).
Proof.
  split.
  - pose proof (loop_count sqrt sampleRate data (length data) 0 analysis0) as H.
    cbn [analysis0 a_notes length] in H. unfold analyzeAudio. lia.
  - intros Hlen. destruct (analyzeAudio sqrt data sampleRate) as [|n ns] eqn:E; [done|].
    destruct (note_chunk sqrt sampleRate data n) as (k & Hk1 & _ & Hk);
      [rewrite E; left|]. nia.
Qed.

Lemma chart_count_bound_witness :
  (length (analyzeAudio sqrtDown plateau 44100) * SIZE <= length plateau - 1)%nat /\
  analyzeAudio sqrtDown (take (2 * SIZE) plateau) 44100 = [].
Proof.
  split.
  - apply (chart_count_bound sqrtDown plateau 44100).
  - apply (chart_count_bound sqrtDown (take (2 * SIZE) plateau) 44100).
    rewrite length_take. apply Nat.le_min_l.
Defined.

(** X6: with a positive sample rate, the note of index [k] (from 0) lies
    later than [(k + 1) * 0.15] s, and the whole chart holds fewer notes
    than the audio has periods of 0.15 s. *)
Theorem chart_density sqrt data sampleRate k n :
  0 < sampleRate ->
  analyzeAudio sqrt data sampleRate !! k = Some n ->
  inject_Z (Z.of_nat (S k)) * MIN_NOTE_GAP < time n /\
  inject_Z (Z.of_nat (length (analyzeAudio sqrt data sampleRate))) * MIN_NOTE_GAP
  < inject_Z (Z.of_nat (length data)) / sampleRate.
Proof.
  intros Hsr Hn. split; [by apply (kth_note_late sqrt sampleRate data)|].
  set (chart := analyzeAudio sqrt data sampleRate) in *.
  destruct (lookup_lt_is_Some_2 chart (length chart - 1)) as [m Hm];
    [apply lookup_lt_Some in Hn; lia|].
  pose proof (kth_note_late sqrt sampleRate data _ m Hm) as Hlate.
  pose proof (note_inside_audio sqrt sampleRate data m Hsr
                (list_elem_of_lookup_2 _ _ _ Hm)) as Hin.
  replace (S (length chart - 1)) with (length chart) in Hlate
    by (apply lookup_lt_Some in Hn; lia).
  assert (0 <= inject_Z (Z.of_nat SIZE) / sampleRate) as Hpos.
  { apply Qle_shift_div_l; [done|]. rewrite Qmult_0_l. by vm_compute. }
  lra.
Qed.

Lemma chart_density_witness :
  inject_Z (Z.of_nat 12) * MIN_NOTE_GAP < 51200 # 20480 /\
  inject_Z (Z.of_nat (length (analyzeAudio sqrtDown pulses pulseRate))) * MIN_NOTE_GAP
  < inject_Z (Z.of_nat (length pulses)) / pulseRate.
Proof.
  apply (chart_density sqrtDown pulses pulseRate 11
           (mkNote (noteId 11) (51200 # 20480) 3 false false true));
    vm_compute; reflexivity.
Defined.

(** ** Signals without onsets *)

Lemma sum_const c h : Forall (fun x => x == c) h -> forall a,
  fold_left Qplus h a == a + inject_Z (Z.of_nat (length h)) * c.
Proof.
  induction 1 as [|x h Hx _ IH]; intros a.
  - cbn. ring.
  - cbn [fold_left length]. rewrite IH, Hx, Nat2Z.inj_succ, <- Z.add_1_r, inject_Z_plus.
    change (inject_Z 1) with 1. ring.
Qed.

Lemma localAverage_const c h :
  Forall (fun x => x == c) h -> h <> [] -> localAverage h == c.
Proof.
  intros Hc Hne. unfold localAverage.
  destruct h as [|x h]; [done|]. cbn [length Nat.ltb Nat.leb].
  rewrite (sum_const c _ Hc). cbn [length].
  assert (~ inject_Z (Z.of_nat (S (length h))) == 0) as Hn.
  { unfold Qeq. cbn. lia. }
  field. exact Hn.
Qed.

Lemma pushHistory_nonempty h r : pushHistory h r <> [].
Proof.
  unfold pushHistory. destruct (Nat.ltb_spec HISTORY_SIZE (length (h ++ [r]))) as [Hlt|_].
  - intros E. apply (f_equal length) in E. rewrite length_drop in E. cbn in E.
    unfold HISTORY_SIZE in Hlt. lia.
  - by destruct h.
Qed.

Lemma pushHistory_Forall (P : Q -> Prop) h r :
  Forall P h -> P r -> Forall P (pushHistory h r).
Proof.
  intros Hh Hr. unfold pushHistory.
  assert (Forall P (h ++ [r])) as Happ by (apply Forall_app; split; [done|by constructor]).
  destruct (_ <? _)%nat; [by apply Forall_drop|done].
Qed.

Section Steady.
Variable sqrt : Q -> Q.
Variable sampleRate : Q.
Variable data : list Q.
Variable c : Q.
Hypothesis c_nonneg : 0 <= c.
Hypothesis steady : forall k, (k * SIZE + SIZE < length data)%nat ->
  chunkRms sqrt data (k * SIZE) == c.

Lemma loopBody_steady k st :
  (k * SIZE + SIZE < length data)%nat ->
  steady_inv c k st -> steady_inv c (S k) (loopBody sqrt sampleRate data (k * SIZE) st).
Proof.
  intros Hk (Hn & Hl & Hh & Hne). pose proof (steady k Hk) as Hr.
  assert (steady_inv c (S k)
            {| a_notes := a_notes st;
               energyHistory := pushHistory (energyHistory st) (chunkRms sqrt data (k * SIZE));
               lastNoteTime := lastNoteTime st |}) as Hkeep.
  { repeat split; cbn; try done; [by apply pushHistory_Forall|].
    intros _. apply pushHistory_nonempty. }
  unfold loopBody.
  destruct (Qgtb (chunkRms sqrt data _) (_ * _)) eqn:Hjump; [|done].
  destruct (Qgtb (chunkRms sqrt data _) MIN_THRESHOLD); [|done]. cbn [andb].
  apply Qgtb_lt in Hjump.
  destruct k as [|k].
  - assert (Qgtb (inject_Z (Z.of_nat (0 * SIZE)) / sampleRate - lastNoteTime st)
              MIN_NOTE_GAP = false) as ->; [|done].
    apply Qgtb_le. rewrite Hl. cbn [Nat.mul Z.of_nat]. unfold Qdiv, MIN_NOTE_GAP.
    change (inject_Z 0) with 0. rewrite Qmult_0_l. lra.
  - exfalso. rewrite (localAverage_const c) in Hjump by (done || by apply Hne).
    rewrite Hr in Hjump. unfold MULTIPLIER in Hjump. lra.
Qed.

Lemma loop_steady fuel : forall k st,
  steady_inv c k st -> a_notes (loop sqrt fuel sampleRate data (k * SIZE) st) = [].
Proof.
  induction fuel as [|fuel IH]; intros k st Hst; cbn [loop]; [apply Hst|].
  destruct (Z.ltb_spec (Z.of_nat (k * SIZE)) (Z.of_nat (length data) - Z.of_nat SIZE)) as [Hlt|_];
    [|apply Hst].
  replace (k * SIZE + SIZE)%nat with (S k * SIZE)%nat by lia.
  apply IH, loopBody_steady; [lia|done].
Qed.

Lemma analyzeAudio_steady : analyzeAudio sqrt data sampleRate = [].
Proof. unfold analyzeAudio. apply (loop_steady _ 0%nat). by repeat split. Qed.

End Steady.

Section Quiet.
Variable sqrt : Q -> Q.
Variable sampleRate : Q.
Variable data : list Q.
Hypothesis quiet : forall k, (k * SIZE + SIZE < length data)%nat ->
  chunkRms sqrt data (k * SIZE) <= MIN_THRESHOLD.

Lemma loop_quiet fuel : forall k st,
  a_notes (loop sqrt fuel sampleRate data (k * SIZE) st) = a_notes st.
Proof.
  induction fuel as [|fuel IH]; intros k st; cbn [loop]; [done|].
  destruct (Z.ltb_spec (Z.of_nat (k * SIZE)) (Z.of_nat (length data) - Z.of_nat SIZE)) as [Hlt|_];
    [|done].
  replace (k * SIZE + SIZE)%nat with (S k * SIZE)%nat by lia. rewrite IH.
  unfold loopBody.
  assert (Qgtb (chunkRms sqrt data (k * SIZE)) MIN_THRESHOLD = false) as ->
    by (apply Qgtb_le, quiet; lia).
  by rewrite andb_false_r.
Qed.

End Quiet.

(** X7: a signal whose analysed chunks all have the same energy [c],
    however loud, yields an empty chart: an onset needs a rise above 1.4
    times the running average, and the very first chunk (whose average is
    0) starts at time 0, inside the first gap. *)
Theorem steady_signal_has_no_notes sqrt data sampleRate c :
  0 <= c ->
  (forall k, (k * SIZE + SIZE < length data)%nat -> chunkRms sqrt data (k * SIZE) == c) ->
  analyzeAudio sqrt data sampleRate = [].
Proof. intros Hc Hsteady. by apply (analyzeAudio_steady sqrt sampleRate data c). Qed.

Lemma steady_signal_has_no_notes_witness : analyzeAudio sqrtDown plateau 44100 = [].
Proof.
  apply (steady_signal_has_no_notes sqrtDown plateau 44100 1); [by vm_compute|].
  intros k Hk. unfold plateau in Hk. rewrite length_replicate in Hk.
  unfold SIZE in Hk.
  assert (k = 0 \/ k = 1)%nat as [-> | ->] by lia; vm_compute; reflexivity.
Defined.

(** X8: a signal none of whose analysed chunks has an energy above
    [MIN_THRESHOLD] (0.05) yields an empty chart, however its energy
    jumps relative to the running average. *)
Theorem quiet_signal_has_no_notes sqrt data sampleRate :
  (forall k, (k * SIZE + SIZE < length data)%nat ->
             chunkRms sqrt data (k * SIZE) <= MIN_THRESHOLD) ->
  analyzeAudio sqrt data sampleRate = [].
Proof.
  intros Hquiet. unfold analyzeAudio.
  by rewrite (loop_quiet sqrt sampleRate data Hquiet _ 0%nat).
Qed.

Lemma quiet_signal_has_no_notes_witness : analyzeAudio sqrtDown whisper 44100 = [].
Proof.
  apply (quiet_signal_has_no_notes sqrtDown whisper 44100).
  intros k Hk.
  assert (length whisper = 6 * SIZE + 1)%nat as Hlen by (vm_compute; reflexivity).
  rewrite Hlen in Hk. unfold SIZE in Hk.
  assert (k = 0 \/ k = 1 \/ k = 2 \/ k = 3 \/ k = 4 \/ k = 5)%nat
    as [-> | [-> | [-> | [-> | [-> | ->]]]]] by lia;
    vm_compute; discriminate.
Defined.

(** * Further properties of the judgment engine *)

(** ** What a press can touch *)





(** ** Frames *)

Lemma Qmax_case (a b : Q) : (Qmax a b = a /\ b <= a) \/ (Qmax a b = b /\ a <= b).
Proof.
  unfold Qmax, GenericMinMax.gmax. destruct (Qcompare_spec a b) as [E|L|G].
  - left. split; [done|]. rewrite E. apply Qle_refl.
  - right. split; [done|]. by apply Qlt_le_weak.
  - left. split; [done|]. by apply Qlt_le_weak.
Qed.

Lemma resolves_max a b n : resolves (Qmax a b) n = resolves a n || resolves b n.
Proof.
  destruct (resolves a n) eqn:Ha, (resolves b n) eqn:Hb; cbn;
    destruct (Qmax_case a b) as [[-> Hle]|[-> Hle]]; try done.
  - apply resolves_true in Ha as (Hh & Hm & Hlt). apply resolves_true. repeat split; try done. lra.
  - apply resolves_true in Hb as (Hh & Hm & Hlt). apply resolves_true. repeat split; try done. lra.
Qed.

Lemma resolves_le a b n : a <= b -> resolves a n = true -> resolves b n = true.
Proof.
  intros Hle (Hh & Hm & Hlt)%resolves_true. apply resolves_true. repeat split; try done. lra.
Qed.

Lemma resolves_comp a b n : a == b -> resolves a n = resolves b n.
Proof. intros E. unfold resolves, overdue. by rewrite (Qgtb_comp a b _ _ E (Qeq_refl _)). Qed.

Lemma resolves_swept a b n : resolves b (sweepNote a n) = negb (resolves a n) && resolves b n.
Proof.
  unfold sweepNote. destruct (resolves a n) eqn:Ha; [|done].
  cbn. by apply resolves_missed.
Qed.

Lemma sweepNote_compose a b n : sweepNote b (sweepNote a n) = sweepNote (Qmax a b) n.
Proof.
  unfold sweepNote at 1 3. rewrite resolves_swept, resolves_max. unfold sweepNote.
  by destruct (resolves a n), (resolves b n).
Qed.

Lemma countResolved_cons ct n ns :
  countResolved ct (n :: ns) = ((if resolves ct n then 1 else 0) + countResolved ct ns)%nat.
Proof.
  unfold countResolved. rewrite filter_cons.
  destruct (resolves ct n); [by rewrite decide_True | by rewrite decide_False].
Qed.

Lemma countResolved_compose a b ns :
  (countResolved a ns + countResolved b (sweepNote a <$> ns))%nat = countResolved (Qmax a b) ns.
Proof.
  induction ns as [|n ns IH]; [done|].
  cbn [fmap list_fmap]. rewrite !countResolved_cons, <- IH, resolves_swept, resolves_max.
  destruct (resolves a n), (resolves b n); cbn; lia.
Qed.

Lemma sweepNote_comp a b n : a == b -> sweepNote a n = sweepNote b n.
Proof. intros E. unfold sweepNote. by rewrite (resolves_comp a b n E). Qed.

Lemma countResolved_comp a b ns : a == b -> countResolved a ns = countResolved b ns.
Proof.
  intros E. induction ns as [|n ns IH]; [done|].
  by rewrite !countResolved_cons, IH, (resolves_comp a b n E).
Qed.

Lemma iter_add {A} (f : A -> A) a b x : Nat.iter b f (Nat.iter a f x) = Nat.iter (a + b) f x.
Proof. rewrite Nat.add_comm. symmetry. apply Nat.iter_add. Qed.

Lemma frames_from nows : forall g0 g m,
  (forall now, elapsed now g = elapsed now g0) ->
  notesRef g = sweepNote m <$> notesRef g0 ->
  stats g = Nat.iter (countResolved m (notesRef g0)) missStats (stats g0) ->
  let m' := fold_left (fun m now' => Qmax m (elapsed now' g0)) nows m in
  notesRef (frames nows g) = sweepNote m' <$> notesRef g0 /\
  stats (frames nows g) = Nat.iter (countResolved m' (notesRef g0)) missStats (stats g0).
Proof.
  unfold frames.
  induction nows as [|now nows IH]; intros g0 g m He En Es; cbn [fold_left]; [done|].
  apply IH.
  - intros now'. by rewrite render_elapsed.
  - rewrite render_notes, En, He, <- list_fmap_compose.
    apply list_fmap_ext. intros _ n _. apply sweepNote_compose.
  - rewrite render_stats, En, Es, He, iter_add. f_equal. apply countResolved_compose.
Qed.

(** X11: a run of frames acts like a single frame at the latest
    transport time among them: the notes are those swept once at that
    time and each note resolved on the way costs exactly one miss.  Two
    runs of frames with the same latest time leave the same notes and
    stats, whatever the order and the number of frames. *)
Theorem frames_depend_on_latest_time now nows g :
  notesRef (frames (now :: nows) g) = sweepNote (latest g now nows) <$> notesRef g /\
  stats (frames (now :: nows) g)
  = Nat.iter (countResolved (latest g now nows) (notesRef g)) missStats (stats g) /\
  forall now' nows',
    latest g now' nows' == latest g now nows ->
    notesRef (frames (now' :: nows') g) = notesRef (frames (now :: nows) g) /\
    stats (frames (now' :: nows') g) = stats (frames (now :: nows) g).
Proof.
  assert (forall now nows,
    notesRef (frames (now :: nows) g) = sweepNote (latest g now nows) <$> notesRef g /\
    stats (frames (now :: nows) g)
    = Nat.iter (countResolved (latest g now nows) (notesRef g)) missStats (stats g)) as H.
  { intros now0 nows0. change (frames (now0 :: nows0) g) with (frames nows0 (render now0 g)).
    apply (frames_from nows0 g (render now0 g) (elapsed now0 g)).
    - intros now'. apply render_elapsed.
    - apply render_notes.
    - apply render_stats. }
  destruct (H now nows) as [Hn Hs]. split; [done|]. split; [done|].
  intros now' nows' E. destruct (H now' nows') as [Hn' Hs'].
  rewrite Hn, Hs, Hn', Hs', (countResolved_comp _ _ _ E). split; [|done].
  apply list_fmap_ext. intros _ n _. by apply sweepNote_comp.
Qed.

Lemma frames_depend_on_latest_time_witness :
  notesRef (frames [2; 1] pulseGame) = notesRef (frames [1; 2; 2] pulseGame) /\
  stats (frames [2; 1] pulseGame) = stats (frames [1; 2; 2] pulseGame).
Proof.
  apply (frames_depend_on_latest_time 1 [2; 2] pulseGame). vm_compute; reflexivity.
Defined.

(** ** Pause *)

Section PauseBarrier.
Variable track : AnalyzedTrack.
Variables (ns0 : list Note) (s0 : GameStats) (e : Q).




End PauseBarrier.



(** ** Whole plays *)

Lemma bonus_bounds c :
  (0 <= (if 10 <? c then c / 10 * 10 else 0) /\
   ((if 10 <? c then c / 10 * 10 else 0) <= Z.max 0 c))%Z.
Proof.
  destruct (Z.ltb_spec 10 c) as [H|H]; [|lia].
  pose proof (Z.mul_div_le c 10 ltac:(lia)). pose proof (Z.div_pos c 10). lia.
Qed.

Lemma iter_perfect_fields k s :
  (0 <= combo s <= maxCombo s)%Z ->
  perfect (Nat.iter k (judgeStats PERFECT) s) = (perfect s + Z.of_nat k)%Z /\
  good (Nat.iter k (judgeStats PERFECT) s) = good s /\
  miss (Nat.iter k (judgeStats PERFECT) s) = miss s /\
  combo (Nat.iter k (judgeStats PERFECT) s) = (combo s + Z.of_nat k)%Z /\
  maxCombo (Nat.iter k (judgeStats PERFECT) s) = Z.max (maxCombo s) (combo s + Z.of_nat k) /\
  (score s + 300 * Z.of_nat k <= score (Nat.iter k (judgeStats PERFECT) s))%Z.
Proof.
  intros Hc. induction k as [|k (H1 & H2 & H3 & H4 & H5 & H6)]; [cbn; repeat split; lia|].
  rewrite Nat.iter_succ.
  pose proof (bonus_bounds (combo (Nat.iter k (judgeStats PERFECT) s) + 1)) as [B _].
  cbn [judgeStats score combo maxCombo perfect good miss SCORES].
  rewrite ?H1, ?H2, ?H3, ?H4, ?H5 in *. repeat split; lia.
Qed.

Lemma onTime_run track c0 todo : forall done g,
  Playing g -> startTime g == c0 -> notesRef g = done ++ todo ->
  Forall (fun n => hit n = true) done -> pristine todo ->
  notesRef (run track (onTimePresses c0 todo) g) = done ++ (setHit <$> todo) /\
  stats (run track (onTimePresses c0 todo) g)
  = Nat.iter (length todo) (judgeStats PERFECT) (stats g).
Proof.
  unfold run.
  induction todo as [|n todo IH]; intros done g Hplay Hc Hn Hdone Htodo.
  { cbn. by rewrite Hn. }
  change (onTimePresses c0 (n :: todo))
    with (KeyLane (lane n) (c0 + time n) :: onTimePresses c0 todo).
  cbn [fold_left].
  apply Forall_cons in Htodo as [[Hh Hm] Htodo].
  set (t := c0 + time n - startTime g).
  assert (Qabs (time n - t) == 0) as Hd.
  { assert (time n - t == 0) as E by (subst t; rewrite Hc; ring). by rewrite E. }
  assert (list_find (fun m => isTarget (lane n) t m = true) (notesRef g)
          = Some (length done, n)) as Hf.
  { apply list_find_Some. rewrite Hn. split; [by rewrite list_lookup_middle|].
    split.
    - apply isTarget_candidate. repeat split; try done. rewrite Hd. lra.
    - intros j m Hj Hlt Ht. rewrite lookup_app_l in Hj by done.
      apply isTarget_candidate in Ht as (_ & Hhit & _).
      apply list_elem_of_lookup_2 in Hj. rewrite Forall_forall in Hdone.
      rewrite (Hdone m Hj) in Hhit. discriminate. }
  destruct (handleInput_found (lane n) (c0 + time n) g _ n Hplay Hf) as (En & Es & _).
  fold t in Es.
  assert (judge (Qabs (time n - t)) = PERFECT) as Hj by (apply judge_PERFECT; rewrite Hd; lra).
  rewrite Hj in Es.
  set (g1 := step track (KeyLane (lane n) (c0 + time n)) g).
  assert (startTime g1 = startTime g /\ Playing g1) as [Hst Hp1].
  { subst g1. cbn [step]. unfold handleInput.
    destruct Hplay as (P1 & P2 & P3). rewrite P1, P2, P3. cbn.
    destruct (list_find _ _) as [[??]|]; by cbn. }
  change (handleInput (lane n) (c0 + time n) g) with g1 in En, Es.
  destruct (IH (done ++ [setHit n]) g1 Hp1) as [IH1 IH2]; try done.
  - by rewrite Hst.
  - rewrite En, Hn. rewrite alter_app_r_alt by lia. rewrite Nat.sub_diag. cbn.
    by rewrite <- app_assoc.
  - apply Forall_app. split; [done|]. by constructor.
  - split.
    + rewrite IH1, <- app_assoc. done.
    + rewrite IH2, Es. cbn [length]. by rewrite <- Nat.iter_succ_r.
Qed.

Lemma full_marks_grade n s :
  (0 < n)%nat -> (300 * Z.of_nat n <= score s)%Z -> gradeOf (accuracy n s) = "S"%string.
Proof.
  intros Hn Hs. rewrite accuracy_rounds by done.
  apply (grade_thresholds _). 
  set (pct := inject_Z (score s) / inject_Z (Z.of_nat n * 300) * 100).
  assert (100 <= pct) as Hpct.
  { subst pct. assert (0 < inject_Z (Z.of_nat n * 300)) as Hpos.
    { rewrite <- (Zlt_Qlt 0). lia. }
    apply Qle_shift_div_l with (c := inject_Z (Z.of_nat n * 300)) (a := 1) (b := inject_Z (score s)) in Hpos as H1.
    - lra.
    - rewrite Qmult_1_l. rewrite <- Zle_Qle. lia. }
  pose proof (Qfloor_resp_le 100 (pct + (1 # 2)) ltac:(lra)) as Hfl.
  change (Qfloor 100) with 100%Z in Hfl.
  rewrite (Zle_Qle 100) in Hfl. change (inject_Z 100) with 100 in Hfl. lra.
Qed.

(** X13: pressing every note of a pristine chart in its lane exactly at
    its time, in chart order, marks every note hit and judges every press
    PERFECT: perfect = combo = max combo = number of notes, no GOOD and no
    MISS, score at least 300 per note, and the grade S on a chart that has
    notes. *)
Theorem on_time_play_is_all_perfect track c0 :
  pristine (notes track) ->
  let N := Z.of_nat (length (notes track)) in
  let g := run track (ClickStart c0 :: onTimePresses c0 (notes track)) (mount track) in
  notesRef g = setHit <$> notes track /\
  perfect (stats g) = N /\ good (stats g) = 0%Z /\ miss (stats g) = 0%Z /\
  combo (stats g) = N /\ maxCombo (stats g) = N /\
  (300 * N <= score (stats g))%Z /\
  (notes track <> [] -> gradeOf (accuracy (length (notes track)) (stats g)) = "S"%string).
Proof.
  intros Hp N g.
  set (g0 := step track (ClickStart c0) (mount track)).
  assert (Playing g0 /\ startTime g0 == c0 /\ notesRef g0 = notes track /\ stats g0 = zeroStats)
    as (HP & Hst & Hn0 & Hs0).
  { subst g0. cbn. repeat split. ring. }
  destruct (onTime_run track c0 (notes track) [] g0 HP Hst Hn0 ltac:(constructor) Hp)
    as [En Es].
  change (run track (onTimePresses c0 (notes track)) g0) with g in En, Es.
  destruct (iter_perfect_fields (length (notes track)) zeroStats ltac:(by cbn))
    as (F1 & F2 & F3 & F4 & F5 & F6).
  rewrite Hs0 in Es. rewrite Es, F1, F2, F3, F4, F5. cbn [zeroStats perfect good miss combo maxCombo score] in *.
  fold N in F6 |- *.
  split; [done|]. repeat split; try lia.
  intros Hne. apply full_marks_grade; [destruct (notes track); [done|cbn; lia]|]. fold N. lia.
Qed.

Lemma on_time_play_is_all_perfect_witness :
  let N := Z.of_nat (length (notes pulseTrack)) in
  let g := run pulseTrack (ClickStart 5 :: onTimePresses 5 (notes pulseTrack))
             (mount pulseTrack) in
  notesRef g = setHit <$> notes pulseTrack /\
  perfect (stats g) = N /\ good (stats g) = 0%Z /\ miss (stats g) = 0%Z /\
  combo (stats g) = N /\ maxCombo (stats g) = N /\
  (300 * N <= score (stats g))%Z /\
  (notes pulseTrack <> [] ->
   gradeOf (accuracy (length (notes pulseTrack)) (stats g)) = "S"%string).
Proof. apply (on_time_play_is_all_perfect pulseTrack 5). repeat constructor. Defined.

Lemma iter_missStats_fields k s :
  score (Nat.iter k missStats s) = score s /\
  maxCombo (Nat.iter k missStats s) = maxCombo s /\
  perfect (Nat.iter k missStats s) = perfect s /\
  good (Nat.iter k missStats s) = good s /\
  miss (Nat.iter k missStats s) = (miss s + Z.of_nat k)%Z /\
  combo (Nat.iter k missStats s) = (if (k =? 0)%nat then combo s else 0%Z).
Proof.
  induction k as [|k (H1 & H2 & H3 & H4 & H5 & H6)]; [cbn; repeat split; lia|].
  rewrite Nat.iter_succ. cbn [missStats score maxCombo perfect good miss combo Nat.eqb].
  repeat split; try done. lia.
Qed.





(** ** Lane flash *)






(** ** Bookkeeping along runs *)

Lemma step_effect track ev g : ev <> ClickRestart -> effect g (step track ev g).
Proof.
  intros Hev. destruct ev as [now|l now|now|now|now| |now|now|now]; cbn [step].
  - destruct (_ && _); by apply effect_none.
  - unfold handleInput.
    destruct (negb (isPlaying g) || isPaused g); [by apply effect_none|].
    destruct (negb (audioContext g)); [by apply effect_none|].
    destruct (list_find _ _) as [[i note]|] eqn:Hf; [|by apply effect_none].
    apply list_find_Some in Hf as (Hi & Ht & _).
    apply isTarget_candidate in Ht as (_ & Hh & Hm & _).
    by eapply effect_press.
  - unfold pauseGame, resumeGame. destruct (isPlaying g).
    + destruct (_ || _); by apply effect_none.
    + destruct (isPaused g); by apply effect_none.
  - unfold pauseGame. destruct (_ && _); [|by apply effect_none].
    destruct (_ || _); by apply effect_none.
  - destruct (_ && _); by apply effect_none.
  - done.
  - unfold timerFires. destruct (restartTimers g); by apply effect_none.
  - destruct (isFinished g); [by apply effect_none|].
    apply (effect_sweep _ _ (elapsed now g)); [apply render_notes | apply render_stats].
  - unfold onended. destruct (Qgeb _ _); by apply effect_none.
Qed.

Lemma countFlag_cons p n ns :
  countFlag p (n :: ns) = ((if p n then 1 else 0) + countFlag p ns)%nat.
Proof.
  unfold countFlag. rewrite filter_cons.
  destruct (p n); [by rewrite decide_True | by rewrite decide_False].
Qed.

Lemma countFlag_le p ns : (countFlag p ns <= length ns)%nat.
Proof. unfold countFlag. apply length_filter. Qed.

Lemma countFlag_pristine ns :
  pristine ns -> countFlag hit ns = 0%nat /\ countFlag missed ns = 0%nat.
Proof.
  induction 1 as [|n ns [Hh Hm] _ [IH1 IH2]]; [done|].
  by rewrite !countFlag_cons, Hh, Hm, IH1, IH2.
Qed.

Lemma countFlag_setHit ns : forall i note,
  ns !! i = Some note -> hit note = false ->
  countFlag hit (alter setHit i ns) = S (countFlag hit ns) /\
  countFlag missed (alter setHit i ns) = countFlag missed ns.
Proof.
  induction ns as [|n ns IH]; intros [|i] note Hi Hh; try done.
  - injection Hi as ->. cbn [alter list_alter]. rewrite !countFlag_cons, Hh. by cbn.
  - cbn in Hi. destruct (IH i note Hi Hh) as [IH1 IH2].
    cbn [alter list_alter]. rewrite !countFlag_cons. fold (alter setHit i ns).
    rewrite IH1, IH2. split; [lia|done].
Qed.

Lemma countFlag_sweep ct ns :
  countFlag hit (sweepNote ct <$> ns) = countFlag hit ns /\
  countFlag missed (sweepNote ct <$> ns)
  = (countFlag missed ns + countResolved ct ns)%nat.
Proof.
  induction ns as [|n ns [IH1 IH2]]; [done|].
  cbn [fmap list_fmap]. rewrite !countFlag_cons, IH1, IH2.
  unfold countResolved. rewrite filter_cons. unfold sweepNote.
  destruct (resolves ct n) eqn:Hr.
  - rewrite decide_True by done. apply resolves_true in Hr as (Hh & Hm & _).
    cbn. rewrite Hh, Hm. split; lia.
  - rewrite decide_False by discriminate. split; lia.
Qed.

Lemma ledger_effect g g' : ledger g -> effect g g' -> ledger g'.
Proof.
  intros [Ht Hh Hc Hm Hn Hl Hu] [En Es|i note d Hi Hhit Hmis En Es|ct En Es].
  - split; rewrite ?En, ?Es; done.
  - destruct (countFlag_setHit _ i note Hi Hhit) as [C1 C2].
    pose proof (bonus_bounds (combo (stats g) + 1)) as [B1 B2].
    pose proof (judge_not_NONE d) as Hj.
    split; rewrite ?En, ?Es, ?C1, ?C2; destruct (judge d); try done;
      cbn [judgeStats score combo maxCombo perfect good miss SCORES]; try lia;
      try (cbn; lia); nia.
  - destruct (countFlag_sweep ct (notesRef g)) as [C1 C2].
    destruct (iter_missStats_fields (countResolved ct (notesRef g)) (stats g))
      as (F1 & F2 & F3 & F4 & F5 & F6).
    split; rewrite ?En, ?Es, ?C1, ?C2, ?F1, ?F2, ?F3, ?F4, ?F5, ?F6;
      try destruct (_ =? 0)%nat; lia.
Qed.

Lemma ledger_zero ns : pristine ns ->
  forall g, notesRef g = ns -> stats g = zeroStats -> ledger g.
Proof.
  intros Hp g En Es. destruct (countFlag_pristine ns Hp) as [C1 C2].
  split; rewrite ?En, ?Es, ?C1, ?C2; cbn; lia.
Qed.

Lemma ledger_reachable track g :
  pristine (notes track) -> reachable track g -> ledger g.
Proof.
  intros Hp. induction 1 as [|ev g Hg IH]; [by apply (ledger_zero (notes track))|].
  destruct (decide (isFinished g || isPaused g = true)) as [Hr|Hr].
  - destruct ev; try (by apply (ledger_effect g), step_effect).
    cbn [step]. rewrite Hr. by apply (ledger_zero (notes track)).
  - destruct ev; try (by apply (ledger_effect g), step_effect).
    cbn [step]. by destruct (_ || _).
Qed.

Lemma effect_length g g' : effect g g' -> length (notesRef g') = length (notesRef g).
Proof.
  intros [En _|i note d _ _ _ En _|ct En _]; rewrite En;
    [done | apply length_alter | apply length_fmap].
Qed.

Lemma length_reachable track g :
  reachable track g -> length (notesRef g) = length (notes track).
Proof.
  induction 1 as [|ev g Hg IH]; [done|].
  destruct ev; try (rewrite <- IH; by apply effect_length, step_effect).
  cbn [step]. by destruct (_ || _).
Qed.

Lemma exclusive_reachable track g :
  pristine (notes track) -> reachable track g -> Forall exclusive (notesRef g).
Proof.
  intros Hp. induction 1 as [|ev g Hg IH]; [by apply pristine_exclusive|].
  by apply step_exclusive.
Qed.

Lemma countFlag_exclusive ns :
  Forall exclusive ns -> (countFlag hit ns + countFlag missed ns <= length ns)%nat.
Proof.
  induction 1 as [|n ns Hn _ IH]; [done|].
  rewrite !countFlag_cons. cbn [length]. unfold exclusive in Hn.
  destruct (hit n), (missed n); try lia.
Qed.

(** X16: in every reachable state of a game on a pristine chart, the
    judgments counted so far (perfect + good + miss) are as many as the
    notes resolved so far (hit or missed); every missed note was counted
    as a miss; the total never exceeds the number of notes of the chart,
    and the runtime notes are as many as the chart's. *)
Theorem judgments_match_resolved_notes track g :
  pristine (notes track) -> reachable track g ->
  (perfect (stats g) + good (stats g) + miss (stats g)
   = Z.of_nat (countFlag hit (notesRef g)) + Z.of_nat (countFlag missed (notesRef g)))%Z /\
  (Z.of_nat (countFlag missed (notesRef g)) <= miss (stats g))%Z /\
  (perfect (stats g) + good (stats g) + miss (stats g) <= Z.of_nat (length (notes track)))%Z /\
  length (notesRef g) = length (notes track).
Proof.
  intros Hp Hg. destruct (ledger_reachable track g Hp Hg) as [Ht Hh _ _ _ _ _].
  pose proof (countFlag_exclusive _ (exclusive_reachable track g Hp Hg)) as Hx.
  pose proof (length_reachable track g Hg) as Hl.
  repeat split; try done; lia.
Qed.

Lemma judgments_match_resolved_notes_witness :
  (perfect (stats pulseGameHit) + good (stats pulseGameHit) + miss (stats pulseGameHit)
   = Z.of_nat (countFlag hit (notesRef pulseGameHit))
     + Z.of_nat (countFlag missed (notesRef pulseGameHit)))%Z /\
  (Z.of_nat (countFlag missed (notesRef pulseGameHit)) <= miss (stats pulseGameHit))%Z /\
  (perfect (stats pulseGameHit) + good (stats pulseGameHit) + miss (stats pulseGameHit)
   <= Z.of_nat (length (notes pulseTrack)))%Z /\
  length (notesRef pulseGameHit) = length (notes pulseTrack).
Proof.
  apply (judgments_match_resolved_notes pulseTrack pulseGameHit).
  - repeat constructor.
  - apply (run_reachable pulseTrack [ClickStart 0; KeyLane 0 (3 # 10)]), reachable_mount.
Defined.

(** X17: in every reachable state of a game on a pristine chart,
    0 <= combo <= max combo <= perfect + good <= number of notes hit
    <= number of notes of the chart. *)
Theorem combo_chain track g :
  pristine (notes track) -> reachable track g ->
  (0 <= combo (stats g) <= maxCombo (stats g))%Z /\
  (maxCombo (stats g) <= perfect (stats g) + good (stats g))%Z /\
  (perfect (stats g) + good (stats g) <= Z.of_nat (countFlag hit (notesRef g)))%Z /\
  (countFlag hit (notesRef g) <= length (notes track))%nat.
Proof.
  intros Hp Hg. destruct (ledger_reachable track g Hp Hg) as [_ Hh Hc Hm _ _ _].
  pose proof (countFlag_le hit (notesRef g)) as Hle.
  rewrite (length_reachable track g Hg) in Hle. done.
Qed.

Lemma combo_chain_witness :
  (0 <= combo (stats pulseGameHit) <= maxCombo (stats pulseGameHit))%Z /\
  (maxCombo (stats pulseGameHit) <= perfect (stats pulseGameHit) + good (stats pulseGameHit))%Z /\
  (perfect (stats pulseGameHit) + good (stats pulseGameHit)
   <= Z.of_nat (countFlag hit (notesRef pulseGameHit)))%Z /\
  (countFlag hit (notesRef pulseGameHit) <= length (notes pulseTrack))%nat.
Proof.
  apply (combo_chain pulseTrack pulseGameHit).
  - repeat constructor.
  - apply (run_reachable pulseTrack [ClickStart 0; KeyLane 0 (3 # 10)]), reachable_mount.
Defined.

(** X18: in every reachable state of a game on a pristine chart, the
    score is at least 300 per PERFECT plus 100 per GOOD, exceeds that by
    at most max combo per scoring press, and lies between 0 and
    (300 + N) * N for a chart of N notes. *)
Theorem score_bounds track g :
  pristine (notes track) -> reachable track g ->
  let N := Z.of_nat (length (notes track)) in
  (300 * perfect (stats g) + 100 * good (stats g) <= score (stats g))%Z /\
  (score (stats g) <= 300 * perfect (stats g) + 100 * good (stats g)
                      + maxCombo (stats g) * (perfect (stats g) + good (stats g)))%Z /\
  (0 <= score (stats g) <= (300 + N) * N)%Z.
Proof.
  intros Hp Hg N. destruct (ledger_reachable track g Hp Hg) as [_ Hh Hc Hm Hn Hlo Hhi].
  pose proof (countFlag_le hit (notesRef g)) as Hl.
  rewrite (length_reachable track g Hg) in Hl.
  split; [done|]. split; [done|]. subst N. nia.
Qed.

Lemma score_bounds_witness :
  let N := Z.of_nat (length (notes pulseTrack)) in
  (300 * perfect (stats pulseGameHit) + 100 * good (stats pulseGameHit)
   <= score (stats pulseGameHit))%Z /\
  (score (stats pulseGameHit)
   <= 300 * perfect (stats pulseGameHit) + 100 * good (stats pulseGameHit)
      + maxCombo (stats pulseGameHit)
        * (perfect (stats pulseGameHit) + good (stats pulseGameHit)))%Z /\
  (0 <= score (stats pulseGameHit) <= (300 + N) * N)%Z.
Proof.
  apply (score_bounds pulseTrack pulseGameHit).
  - repeat constructor.
  - apply (run_reachable pulseTrack [ClickStart 0; KeyLane 0 (3 # 10)]), reachable_mount.
Defined.

(** X19: no event but the restart click ever lowers the score, the max
    combo or one of the three judgment counters. *)
Theorem stats_only_grow track ev g :
  ev <> ClickRestart ->
  (score (stats g) <= score (stats (step track ev g)))%Z /\
  (maxCombo (stats g) <= maxCombo (stats (step track ev g)))%Z /\
  (perfect (stats g) <= perfect (stats (step track ev g)))%Z /\
  (good (stats g) <= good (stats (step track ev g)))%Z /\
  (miss (stats g) <= miss (stats (step track ev g)))%Z.
Proof.
  intros Hev. destruct (step_effect track ev g Hev) as [_ Es|i note d _ _ _ _ Es|ct _ Es];
    rewrite Es.
  - lia.
  - pose proof (bonus_bounds (match judge d with MISS => 0 | _ => combo (stats g) + 1 end)%Z)
      as [B _].
    destruct (judge d); cbn [judgeStats score maxCombo perfect good miss SCORES] in *; lia.
  - destruct (iter_missStats_fields (countResolved ct (notesRef g)) (stats g))
      as (F1 & F2 & F3 & F4 & F5 & _). rewrite F1, F2, F3, F4, F5. lia.
Qed.

Lemma stats_only_grow_witness :
  (score (stats pulseGame) <= score (stats (step pulseTrack (KeyLane 0 (3 # 10)) pulseGame)))%Z /\
  (maxCombo (stats pulseGame)
   <= maxCombo (stats (step pulseTrack (KeyLane 0 (3 # 10)) pulseGame)))%Z /\
  (perfect (stats pulseGame)
   <= perfect (stats (step pulseTrack (KeyLane 0 (3 # 10)) pulseGame)))%Z /\
  (good (stats pulseGame) <= good (stats (step pulseTrack (KeyLane 0 (3 # 10)) pulseGame)))%Z /\
  (miss (stats pulseGame) <= miss (stats (step pulseTrack (KeyLane 0 (3 # 10)) pulseGame)))%Z.
Proof. apply (stats_only_grow pulseTrack (KeyLane 0 (3 # 10)) pulseGame). discriminate. Defined.

(** ** Restart and the lifecycle flags *)

(** X20: the restart click (offered when finished or paused) puts back
    the chart of the track, zero stats, no last judgment and a zero pause
    time at once; when its timer fires the game plays from transport time
    0 with the same reset state; and in between, while nothing plays, no
    frame misses a note (for charts whose notes lie at or after -0.25 s,
    as all generated charts do). *)
Theorem restart_resets_everything track now g :
  isFinished g || isPaused g = true ->
  let g1 := step track ClickRestart g in
  let g2 := step track (TimerFires now) g1 in
  (notesRef g1 = notes track /\ stats g1 = zeroStats /\ lastJudgment g1 = None /\
   isFinished g1 = false /\ pauseTime g1 = 0) /\
  (notesRef g2 = notes track /\ stats g2 = zeroStats /\ lastJudgment g2 = None /\
   isFinished g2 = false /\ Playing g2 /\ elapsed now g2 == 0) /\
  (isPlaying g = false ->
   (forall n, n ∈ notes track -> - (25 # 100) <= time n) ->
   forall nows, notesRef (frames nows g1) = notes track /\ stats (frames nows g1) = zeroStats).
Proof.
  intros Hr g1 g2.
  assert (g1 = restartGame track g) as E1 by (subst g1; cbn [step]; by rewrite Hr).
  assert (g2 = playAudio 0 now
                 {| audioContext := audioContext g1; sourceNode := sourceNode g1;
                    startTime := startTime g1; pauseTime := pauseTime g1;
                    notesRef := notesRef g1; isPlaying := isPlaying g1;
                    isPaused := isPaused g1; isFinished := isFinished g1;
                    stats := stats g1; lastJudgment := lastJudgment g1;
                    laneEffects := laneEffects g1;
                    restartTimers := restartTimers g |}) as E2
    by (subst g2; rewrite E1; reflexivity).
  split; [by rewrite E1|]. split.
  { rewrite E2, E1. cbn. repeat split. ring. }
  intros Hp Htimes nows.
  assert (forall h, isPlaying h = false -> pauseTime h = 0 -> notesRef h = notes track ->
            stats h = zeroStats ->
            notesRef (frames nows h) = notes track /\ stats (frames nows h) = zeroStats) as H.
  { unfold frames. induction nows as [|now' nows IH]; intros h H1 H2 H3 H4; cbn [fold_left]; [done|].
    assert (countResolved (elapsed now' h) (notesRef h) = 0%nat /\
            sweepNote (elapsed now' h) <$> notesRef h = notesRef h) as [C1 C2].
    { assert (forall n, n ∈ notesRef h -> resolves (elapsed now' h) n = false) as Hno.
      { intros n Hn. apply not_true_is_false. intros (_ & _ & Hlt)%resolves_true.
        rewrite H3 in Hn. specialize (Htimes n Hn).
        unfold elapsed in Hlt. rewrite H1, H2 in Hlt. destruct (audioContext h); lra. }
      split; [by apply countResolved_none|].
      rewrite <- (list_fmap_id (notesRef h)) at 2. apply list_fmap_ext.
      intros _ n Hn%list_elem_of_lookup_2. unfold sweepNote. by rewrite Hno. }
    apply IH.
    - unfold render. by destruct (sweep _ _ _ _) as [[??]?].
    - unfold render. by destruct (sweep _ _ _ _) as [[??]?].
    - by rewrite render_notes, C2.
    - by rewrite render_stats, C1. }
  apply H; by rewrite E1.
Qed.

Lemma restart_resets_everything_witness :
  let g1 := step pulseTrack ClickRestart (pauseGame 1 pulseGameHit) in
  let g2 := step pulseTrack (TimerFires 4) g1 in
  (notesRef g1 = notes pulseTrack /\ stats g1 = zeroStats /\ lastJudgment g1 = None /\
   isFinished g1 = false /\ pauseTime g1 = 0) /\
  (notesRef g2 = notes pulseTrack /\ stats g2 = zeroStats /\ lastJudgment g2 = None /\
   isFinished g2 = false /\ Playing g2 /\ elapsed 4 g2 == 0) /\
  (isPlaying (pauseGame 1 pulseGameHit) = false ->
   (forall n, n ∈ notes pulseTrack -> - (25 # 100) <= time n) ->
   forall nows, notesRef (frames nows g1) = notes pulseTrack /\
                stats (frames nows g1) = zeroStats).
Proof. apply (restart_resets_everything pulseTrack 4 (pauseGame 1 pulseGameHit)). reflexivity. Defined.

(** X21: in every reachable state, playing and paused exclude each other;
    while playing, the audio context and a source node exist; while
    paused, the audio context exists. *)
Theorem lifecycle_flags track g :
  reachable track g ->
  (isPlaying g = true -> isPaused g = false /\ audioContext g = true /\ sourceNode g = true) /\
  (isPaused g = true -> isPlaying g = false /\ audioContext g = true).
Proof.
  induction 1 as [|ev g Hg [IH1 IH2]]; [by split|].
  destruct ev as [now|l now|now|now|now| |now|now|now]; cbn [step].
  - destruct (_ && _); [by cbn | done].
  - unfold handleInput. destruct (negb (isPlaying g) || isPaused g); [done|].
    destruct (negb (audioContext g)); [done|]. by destruct (list_find _ _) as [[??]|].
  - unfold pauseGame, resumeGame. destruct (isPlaying g) eqn:Hp.
    + destruct (IH1 eq_refl) as (_ & Ha & _). rewrite Ha. cbn. by split.
    + destruct (isPaused g) eqn:Hq; [by cbn |]. rewrite Hp, Hq. by split.
  - destruct (_ && _) eqn:E; [|done]. apply andb_true_iff in E as [_ Hp].
    unfold pauseGame. rewrite Hp. destruct (IH1 Hp) as (_ & Ha & _). rewrite Ha. cbn. by split.
  - destruct (_ && _); [by cbn | done].
  - destruct (_ || _); [by cbn | done].
  - unfold timerFires. destruct (restartTimers g); [done | by cbn].
  - destruct (isFinished g); [done|]. unfold render.
    by destruct (sweep _ _ _ _) as [[??]?].
  - unfold onended. destruct (Qgeb _ _); [|done]. cbn. split; [done|].
    intros Hq. destruct (IH2 Hq) as [_ Ha]. by split.
Qed.

Lemma lifecycle_flags_witness :
  (isPlaying pulseGameHit = true ->
   isPaused pulseGameHit = false /\ audioContext pulseGameHit = true /\
   sourceNode pulseGameHit = true) /\
  (isPaused pulseGameHit = true ->
   isPlaying pulseGameHit = false /\ audioContext pulseGameHit = true).
Proof.
  apply (lifecycle_flags pulseTrack pulseGameHit).
  apply (run_reachable pulseTrack [ClickStart 0; KeyLane 0 (3 # 10)]), reachable_mount.
Defined.

(** X22: the result screen comes up only through the end-of-audio
    callback, and only when the transport has reached the last half
    second of the track (playing stops with it); a finished game leaves
    the result screen only through the restart click. *)
Theorem finished_only_by_end_of_audio track ev g :
  (isFinished g = false -> isFinished (step track ev g) = true ->
   exists now, ev = SourceEnded now /\ duration track - (5 # 10) <= now - startTime g /\
               isPlaying (step track ev g) = false) /\
  (isFinished g = true -> isFinished (step track ev g) = false -> ev = ClickRestart).
Proof.
  destruct ev as [now|l now|now|now|now| |now|now|now]; cbn [step].
  - destruct (_ && _); cbn; split; congruence.
  - unfold handleInput. destruct (negb (isPlaying g) || isPaused g); [split; congruence|].
    destruct (negb (audioContext g)); [split; congruence|].
    destruct (list_find _ _) as [[??]|]; cbn; split; congruence.
  - unfold pauseGame, resumeGame. destruct (isPlaying g); [|destruct (isPaused g)];
      try destruct (_ || _); cbn; split; congruence.
  - destruct (_ && _); [|split; congruence]. unfold pauseGame.
    destruct (_ || _); cbn; split; congruence.
  - destruct (_ && _); cbn; split; congruence.
  - destruct (_ || _); cbn; split; congruence.
  - unfold timerFires. destruct (restartTimers g); cbn; split; congruence.
  - destruct (isFinished g) eqn:E; [split; congruence|]. unfold render.
    destruct (sweep _ _ _ _) as [[??]?]. cbn. split; congruence.
  - unfold onended. destruct (Qgeb _ _) eqn:E; [|split; congruence]. cbn. split; [|congruence].
    intros _ _. exists now. unfold Qgeb in E. apply Qle_bool_iff in E. done.
Qed.

Lemma finished_only_by_end_of_audio_witness :
  exists now, SourceEnded (25 # 10) = SourceEnded now /\
              duration pulseTrack - (5 # 10) <= now - startTime pulseGame /\
              isPlaying (step pulseTrack (SourceEnded (25 # 10)) pulseGame) = false.
Proof.
  apply (proj1 (finished_only_by_end_of_audio pulseTrack (SourceEnded (25 # 10)) pulseGame));
    reflexivity.
Defined.

(** ** Keyboard *)



(** * Drawing *)

(** ** Visualizer *)


Lemma smoothBins_range data : forall smooth,
  Forall (fun t => (0 <= t <= 255)%Z) data -> Forall inByteRange smooth ->
  Forall inByteRange (smoothBins data smooth).
Proof.
  unfold smoothBins.
  induction data as [|t data IH]; intros [|v smooth] Hd Hs; try by constructor.
  apply Forall_cons in Hd as [Ht Hd]. apply Forall_cons in Hs as [[Hv0 Hv1] Hs].
  cbn [zip_with]. constructor; [|by apply IH].
  assert (0 <= inject_Z t /\ inject_Z t <= 255) as [H0 H1].
  { change 0 with (inject_Z 0). change 255 with (inject_Z 255).
    rewrite <- !Zle_Qle. lia. }
  unfold inByteRange, lerp, SMOOTH_FACTOR. split; lra.
Qed.

(** X24: fed with byte spectra (values 0..255), the smoothed values of
    the visualizer stay within 0..255 frame after frame, and every bar
    drawn is at least 2 pixels and at most [max(MAX_HEIGHT, 2)] high. *)
Theorem smoothing_stays_in_byte_range spectra smooth MAX_HEIGHT :
  Forall (Forall (fun t => (0 <= t <= 255)%Z)) spectra ->
  Forall inByteRange smooth ->
  0 <= MAX_HEIGHT ->
  Forall (fun v => inByteRange v /\
                   2 <= barHeight MAX_HEIGHT v /\ barHeight MAX_HEIGHT v <= Qmax MAX_HEIGHT 2)
    (fold_left (fun s d => smoothBins d s) spectra smooth).
Proof.
  intros Hsp Hs Hmax.
  assert (Forall inByteRange (fold_left (fun s d => smoothBins d s) spectra smooth)) as H.
  { revert smooth Hs. induction Hsp as [|d spectra Hd _ IH]; intros smooth Hs; [done|].
    cbn [fold_left]. by apply IH, smoothBins_range. }
  eapply Forall_impl; [exact H|]. intros v [Hv0 Hv1]. split; [done|].
  unfold barHeight.
  assert (0 <= v / 255 * MAX_HEIGHT /\ v / 255 * MAX_HEIGHT <= MAX_HEIGHT) as [Ha Hb].
  { assert (0 <= v / 255 /\ v / 255 <= 1) as [P0 P1]
      by (change (v / 255) with (v * (1 # 255)); split; lra).
    split; [by apply Qmult_le_0_compat|].
    rewrite <- (Qmult_1_l MAX_HEIGHT) at 2. by apply Qmult_le_compat_r. }
  destruct (Qmax_case (v / 255 * MAX_HEIGHT) 2) as [[-> H1]|[-> H1]];
    destruct (Qmax_case MAX_HEIGHT 2) as [[-> H2]|[-> H2]]; split; lra.
Qed.

Lemma smoothing_stays_in_byte_range_witness :
  Forall (fun v => inByteRange v /\
                   2 <= barHeight 330 v /\ barHeight 330 v <= Qmax 330 2)
    (fold_left (fun s d => smoothBins d s) [[255; 0]; [0; 255]]%Z [0; 0]).
Proof.
  apply (smoothing_stays_in_byte_range [[255; 0]; [0; 255]]%Z [0; 0] 330).
  - repeat constructor; lia.
  - repeat constructor; by vm_compute.
  - by vm_compute.
Defined.




(** ** Notes on the canvas *)

Lemma layout_inside_canvas WIDTH :
  0 <= WIDTH ->
  0 <= LANE_WIDTH WIDTH /\ LANE_WIDTH WIDTH * 4 <= WIDTH /\ LANE_WIDTH WIDTH <= 100 /\
  0 <= START_X WIDTH /\ START_X WIDTH + LANE_WIDTH WIDTH * 4 == WIDTH - START_X WIDTH.
Proof.
  intros HW. unfold START_X, LANE_WIDTH.
  change (WIDTH / 4) with (WIDTH * (1 # 4)).
  assert (forall x, x / 2 == x * (1 # 2)) as Hhalf by (intros; reflexivity).
  rewrite !Hhalf.
  unfold Qmin, GenericMinMax.gmin.
  destruct (Qcompare_spec (WIDTH * (1 # 4)) 100) as [E|L|G]; repeat split; try lra; try ring.
Qed.

(** X26: a note that is drawn has the centre of its body at
    [JUDGMENT_Y - (time - currentTime) * 600]: on the hit line exactly
    when the transport time equals the note's time, never more than 1200
    pixels above or 120 pixels below it; the body is 16 pixels high, and
    for a lane in 0..3 it lies inside its lane, which lies inside the
    canvas. *)
Theorem note_crosses_hit_line_on_time WIDTH HEIGHT currentTime note r :
  noteBody WIDTH HEIGHT currentTime note = Some r ->
  let centre := rect_y r + 8 in
  centre == JUDGMENT_Y HEIGHT - (time note - currentTime) * 600 /\
  (centre == JUDGMENT_Y HEIGHT <-> currentTime == time note) /\
  JUDGMENT_Y HEIGHT - 1200 <= centre /\ centre <= JUDGMENT_Y HEIGHT + 120 /\
  rect_h r = 16 /\
  (0 <= WIDTH -> (0 <= lane note <= 3)%Z ->
   let left := START_X WIDTH + inject_Z (lane note) * LANE_WIDTH WIDTH in
   0 <= left /\ left + LANE_WIDTH WIDTH <= WIDTH /\
   rect_x r == left + 4 /\ rect_x r + rect_w r == left + LANE_WIDTH WIDTH - 4).
Proof.
  unfold noteBody. destruct (hit note); [done|].
  destruct (missed note || overdue currentTime note); [done|].
  destruct (Qgtb _ LOOK_AHEAD_TIME) eqn:E1; [done|].
  destruct (Qgtb (- (2 # 10)) _) eqn:E2; [done|]. cbn [orb].
  intros [= <-]. cbv zeta. cbn [rect_x rect_y rect_w rect_h].
  apply Qgtb_le in E1, E2. unfold LOOK_AHEAD_TIME, NOTE_SPEED in *.
  split; [ring|]. split; [split; intros H; lra|]. split; [lra|]. split; [lra|].
  split; [done|]. intros HW Hl.
  destruct (layout_inside_canvas WIDTH HW) as (L0 & L4 & _ & S0 & _).
  assert (0 <= inject_Z (lane note) /\ inject_Z (lane note) <= 3) as [Hl0 Hl3].
  { change 0 with (inject_Z 0). change 3 with (inject_Z 3). rewrite <- !Zle_Qle. lia. }
  set (w := LANE_WIDTH WIDTH) in *. set (k := inject_Z (lane note)) in *.
  assert (0 <= k * w) by (by apply Qmult_le_0_compat).
  assert (k * w <= 3 * w) by (by apply Qmult_le_compat_r).
  assert (START_X WIDTH + w * 4 <= WIDTH).
  { unfold START_X. fold w. change ((WIDTH - w * 4) / 2) with ((WIDTH - w * 4) * (1 # 2)). lra. }
  repeat split; try lra; ring.
Qed.

Lemma note_crosses_hit_line_on_time_witness :
  exists r, noteBody 800 600 (1 # 2) (soloNote 1) = Some r /\
            rect_y r + 8 == JUDGMENT_Y 600 - (time (soloNote 1) - (1 # 2)) * 600.
Proof.
  eexists. split; [reflexivity|].
  eapply (note_crosses_hit_line_on_time 800 600 (1 # 2) (soloNote 1)). reflexivity.
Defined.



(** * The displayed file name *)

Lemma allExtChars_app a b : allExtChars (a ++ b) = allExtChars a && allExtChars b.
Proof. induction a as [|c a IH]; [done|]. cbn. by rewrite IH, andb_assoc. Qed.

(** X28: the file name shown for a track is the uploaded name without
    its last extension: a final dot followed by one or more characters
    other than dot and slash is cut off with what follows it, and any
    other name (no dot, a trailing dot, a slash after the last dot) is
    kept as it is. *)
Theorem strip_extension_spec s :
  (forall name ext,
     s = (name ++ "." ++ ext)%string -> ext <> ""%string -> allExtChars ext = true ->
     stripExtension s = name) /\
  (stripExtension s = s \/
   exists name ext, s = (name ++ "." ++ ext)%string /\ ext <> ""%string /\
                    allExtChars ext = true /\ stripExtension s = name).
Proof.
  split.
  - intros name ext -> Hne Hext.
    change ("." ++ ext)%string with (String "."%char ext).
    induction name as [|c name IH].
    + cbn. rewrite Hext. destruct ext; [done|]. by cbn.
    + cbn [append stripExtension]. rewrite IH.
      assert (allExtChars (name ++ String "."%char ext) = false) as ->;
        [|by rewrite andb_false_r].
      rewrite allExtChars_app. cbn. apply andb_false_r.
  - induction s as [|c s IH]; [by left|]. cbn [stripExtension].
    destruct (Ascii.eqb_spec c "."%char) as [->|Hc]; cbn [andb].
    + destruct (String.eqb_spec s "") as [->|Hs]; cbn [negb andb]; [by left|].
      destruct (allExtChars s) eqn:He.
      * right. exists ""%string, s. by cbn.
      * destruct IH as [->|(name & ext & -> & Hne & Hext & ->)]; [by left|].
        right. exists (String "." name), ext. by cbn.
    + destruct IH as [->|(name & ext & -> & Hne & Hext & ->)]; [by left|].
      right. exists (String c name), ext. by cbn.
Qed.

Lemma strip_extension_spec_witness :
  stripExtension "live.set.mp3" = "live.set"%string /\
  stripExtension "a.b/c" = "a.b/c"%string.
Proof.
  split.
  - apply (proj1 (strip_extension_spec "live.set.mp3") "live.set"%string "mp3"%string);
      [reflexivity | discriminate | reflexivity].
  - reflexivity.
Defined.

(** * Worked examples *)

(** The judgment windows around a note at 10.000 s, boundaries included
    (in exact arithmetic: the binary64 difference 10 - 9.92 lies a hair
    above 0.08). *)
Example press_at_9_920 :
  lastJudgment (handleInput 0 (9920 # 1000) (soloGame 10)) = Some PERFECT.
Proof. reflexivity. Qed.

Example press_at_10_080 :
  lastJudgment (handleInput 0 (10080 # 1000) (soloGame 10)) = Some PERFECT.
Proof. reflexivity. Qed.

Example press_at_9_919 :
  lastJudgment (handleInput 0 (9919 # 1000) (soloGame 10)) = Some GOOD.
Proof. reflexivity. Qed.

Example press_at_9_850 :
  lastJudgment (handleInput 0 (9850 # 1000) (soloGame 10)) = Some GOOD.
Proof. reflexivity. Qed.

Example press_at_10_150 :
  lastJudgment (handleInput 0 (10150 # 1000) (soloGame 10)) = Some GOOD.
Proof. reflexivity. Qed.

Example press_at_9_849 :
  lastJudgment (handleInput 0 (9849 # 1000) (soloGame 10)) = Some MISS.
Proof. reflexivity. Qed.

Example press_at_9_750 :
  lastJudgment (handleInput 0 (9750 # 1000) (soloGame 10)) = Some MISS.
Proof. reflexivity. Qed.

Example press_at_10_250 :
  lastJudgment (handleInput 0 (10250 # 1000) (soloGame 10)) = Some MISS.
Proof. reflexivity. Qed.

Example press_at_9_749 :
  lastJudgment (handleInput 0 (9749 # 1000) (soloGame 10)) = None /\
  notesRef (handleInput 0 (9749 # 1000) (soloGame 10)) = [soloNote 10].
Proof. split; reflexivity. Qed.

Example press_at_10_251 :
  lastJudgment (handleInput 0 (10251 # 1000) (soloGame 10)) = None /\
  notesRef (handleInput 0 (10251 # 1000) (soloGame 10)) = [soloNote 10].
Proof. split; reflexivity. Qed.

(** A press in another lane only lights that lane up. *)
Example press_other_lane :
  notesRef (handleInput 3 10 (soloGame 10)) = [soloNote 10] /\
  stats (handleInput 3 10 (soloGame 10)) = zeroStats /\
  laneEffects (handleInput 3 10 (soloGame 10)) = [0; 0; 0; 1].
Proof. repeat split. Qed.

(** A note at 5.0 s, never pressed: missed by the frame at 5.26 s, once. *)
Example tick_at_5_26 :
  notesRef (frames [525 # 100] (soloGame 5)) = [soloNote 5] /\
  notesRef (frames [525 # 100; 526 # 100] (soloGame 5)) = [setMissed (soloNote 5)] /\
  stats (frames [525 # 100; 526 # 100] (soloGame 5))
  = {| score := 0; combo := 0; maxCombo := 0; perfect := 0; good := 0; miss := 1 |} /\
  stats (frames [525 # 100; 526 # 100; 527 # 100; 9] (soloGame 5))
  = {| score := 0; combo := 0; maxCombo := 0; perfect := 0; good := 0; miss := 1 |}.
Proof. repeat split. Qed.

(** While paused the sweep sees the frozen transport time: a note whose
    window passes on the audio clock during the pause is not missed. *)
Example paused_frames_do_not_miss :
  notesRef (run (soloTrack 5) [ClickStart 0; KeySpace 4; Frame 9; KeySpace 10; Frame 10]
              (mount (soloTrack 5)))
  = [soloNote 5].
Proof. reflexivity. Qed.

(** Restart after a finished perfect run: pristine notes, zero stats. *)
Example restart_resets :
  let g := run pulseTrack (perfectRun ++ [ClickRestart]) (mount pulseTrack) in
  notesRef g = pulseChart /\ stats g = zeroStats /\ isFinished g = false.
Proof. repeat split. Qed.

(** The lane patterns of the first four groups of eight beats. *)
Example lanes_of_first_groups :
  map (fun b => laneOf b 0) (seq 0 24)
  = [0; 1; 2; 3; 0; 1; 2; 3;  2; 3; 2; 3; 2; 3; 2; 3;  3; 2; 1; 0; 3; 2; 1; 0]%Z /\
  laneOf 24 (123 # 100) = 3%Z /\ laneOf 25 (150 # 100) = 2%Z.
Proof. repeat split. Qed.

(** A buffer of exactly one chunk is never analysed: the loop bound is
    strict. *)
Example one_chunk_no_iteration :
  analyzeAudio sqrtDown (replicate SIZE 1) 1000 = [].
Proof. reflexivity. Qed.
